(** * Kenya civic explorer: the data service, the filter/sort pipeline and
      the helpers, embedded from the JavaScript sources.

    Sources embedded here:
    - [DataService] (constructor, [_fetchJSON], [fetchAllAreas],
      [getComprehensiveMockData], [fetchCounties], [fetchAreasByCounty],
      [calculateStatistics], [getUniqueCounties], [sortData],
      [getMockCounties], [clearCache]);
    - [App.applyFilters] of the main entry point;
    - [debounce], [escapeHTML] and [validateInput] of utils/helpers.js.

    Modelling conventions.
    - A JavaScript string is a [string] (a sequence of bytes); an absent
      property ([undefined]) of an object is [None].
    - An [area] is a record of the data model, whose name is a string; the
      built-in dataset is made of them, and sorting, filtering and counting
      work on them.  A [row] is an area object as the service hands it out:
      the service copies the names of remote entries unchecked, so the name
      of a row may be absent.  A name that is present is a string.
    - [toLowerCase] is the ASCII lower-casing; bytes outside A-Z are kept.
    - Asynchronous code runs in a state monad over a [world] (cache, request
      counter, effect trace); its completion is a value, a thrown error, a
      promise that never settles, or fuel exhaustion of the retry loop.
    - The remote side is a function from the request number and URL to a
      reply with a latency; the body of a response arrives, breaks off or
      stalls after the headers; a decoded JSON value is seen through the
      properties the service reads, by the way JavaScript reacts to them.
    - [localeCompare] is a parameter; [Array.prototype.sort] is the stable
      sort; arrays handed to [sortData] live in a heap of locations.
    - Timers run in discrete milliseconds; a timer due at the time of a
      trigger fires before it. *)

From Stdlib Require Import ZArith List Bool Ascii String Lia Permutation Sorted.
From Stdlib Require Import DecimalString.
From stdpp Require Import gmap strings.
Import ListNotations.

Local Open Scope Z_scope.

(** ** Strings *)

(** [String.prototype.toLowerCase], restricted to ASCII letters. *)
Definition lower_ascii (c : ascii) : ascii :=
  let n := N_of_ascii c in
  if ((65 <=? n) && (n <=? 90))%N then ascii_of_N (n + 32) else c.

Fixpoint toLowerCase (s : string) : string :=
  match s with
  | EmptyString => EmptyString
  | String c s' => String (lower_ascii c) (toLowerCase s')
  end.

(** [s.includes(sub)]: [sub] occurs in [s] as a contiguous substring. *)
Fixpoint includes (s sub : string) : bool :=
  String.prefix sub s ||
  match s with
  | EmptyString => false
  | String _ s' => includes s' sub
  end.

(** Truthiness of a string: only the empty string is falsy. *)
Definition truthy (s : string) : bool :=
  match s with EmptyString => false | _ => true end.

(** [String(n)] for a non-negative integer. *)
Definition String_of_nat (n : nat) : string :=
  NilZero.string_of_uint (Nat.to_uint n).

(** [s.padStart(n, '0')]. *)
Definition padStart0 (n : nat) (s : string) : string :=
  String.concat "" (repeat "0" (n - String.length s)) +:+ s.

(** ** Area records *)

(** An area object.  [county] and [constituency] are optional properties. *)
Record area := mkArea {
  name : string;
  code : option string;
  type : string;
  county : option string;
  constituency : option string
}.

(** ** Statistics *)

Record statistics := mkStats {
  counties : nat;
  constituencies : nat;
  wards : nat;
  total : nat
}.

(** [item.type === t] *)
Definition has_type (t : string) (item : area) : bool := String.eqb (type item) t.

Definition calculateStatistics (data : list area) : statistics :=
  {| counties := length (List.filter (has_type "county") data);
     constituencies := length (List.filter (has_type "constituency") data);
     wards := length (List.filter (has_type "ward") data);
     total := length data |}.

(** The three values of the [type] enumeration of the data model. *)
Definition valid_type (item : area) : bool :=
  has_type "county" item || has_type "constituency" item || has_type "ward" item.

(** ** The built-in datasets *)

(** The [countyData] table of [getComprehensiveMockData], in the insertion
    order of its keys (the order [Object.entries] iterates). *)
Definition countyData : list (string * list string) :=
  [
    ("Nairobi", ["Westlands"; "Dagoretti North"; "Dagoretti South"; "Langata"; "Kibra"; "Kambiokeji"; "Roysambu"; "Embakasi East"; "Embakasi Central"; "Embakasi North"; "Embakasi West"; "Embakasi South"; "Kamukunji"; "Starehe"; "Madaraka"; "Kasarani"; "Ruaraka"]);
    ("Mombasa", ["Mvita"; "Changamwe"; "Kisauni"; "Nyali"; "Jomvu"; "Likoni"]);
    ("Kwale", ["Msambweni"; "Lunga Lunga"; "Matuga"; "Kinango"]);
    ("Kilifi", ["Kilifi North"; "Kilifi South"; "Kaloleni"; "Rabai"; "Ganze"; "Malindi"; "Magarini"]);
    ("Tana River", ["Garsen"; "Galole"; "Bura"]);
    ("Lamu", ["Lamu East"; "Lamu West"]);
    ("Taita–Taveta", ["Taveta"; "Wundanyi"; "Mwatate"; "Voi"]);
    ("Garissa", ["Garissa Township"; "Balambala"; "Lagdera"; "Dadaab"; "Fafi"; "Ijara"]);
    ("Wajir", ["Wajir North"; "Wajir East"; "Tarbaj"; "Wajir West"; "Eldas"; "Wajir South"]);
    ("Mandera", ["Mandera West"; "Banissa"; "Mandera North"; "Mandera South"; "Mandera East"; "Lafey"]);
    ("Marsabit", ["Moyale"; "North Horr"; "Saku"; "Laisamis"]);
    ("Isiolo", ["Isiolo North"; "Isiolo South"]);
    ("Meru", ["Igembe South"; "Igembe Central"; "Igembe North"; "Tigania West"; "Tigania East"; "North Imenti"; "Buuri"; "South Imenti"; "Imenti Central"]);
    ("Tharaka-Nithi", ["Maara"; "Chuka/Igambang'ombe"; "Tharaka"]);
    ("Embu", ["Manyatta"; "Runyenjes"; "Mbeere South"; "Mbeere North"]);
    ("Kitui", ["Mwingi North"; "Mwingi West"; "Mwingi Central"; "Kitui West"; "Kitui Rural"; "Kitui Central"; "Kitui East"; "Kitui South"]);
    ("Machakos", ["Masinga"; "Yatta"; "Kangundo"; "Matungulu"; "Kathiani"; "Mavoko"; "Machakos Town"; "Mwala"]);
    ("Makueni", ["Mbooni"; "Kilome"; "Kaiti"; "Makueni"; "Kibwezi West"; "Kibwezi East"]);
    ("Nyandarua", ["Kinangop"; "Kipipiri"; "Ol Kalou"; "Ol Jorok"; "Ndaragwa"]);
    ("Nyeri", ["Tetu"; "Kieni"; "Mathira"; "Othaya"; "Mukurweini"; "Nyeri Town"]);
    ("Kirinyaga", ["Mwea"; "Gichugu"; "Ndia"; "Kirinyaga Central"]);
    ("Murang'a", ["Kangema"; "Mathioya"; "Kiharu"; "Kigumo"; "Maragwa"; "Kandara"; "Gatanga"]);
    ("Kiambu", ["Gatundu South"; "Gatundu North"; "Juja"; "Thika Town"; "Ruiru"; "Githunguri"; "Kiambu"; "Kiambaa"; "Lari"; "Limuru"; "Kabete"; "Kasarani"]);
    ("Turkana", ["Turkana North"; "Turkana West"; "Turkana Central"; "Loima"; "Turkana South"; "Turkana East"]);
    ("West Pokot", ["Kapenguria"; "Sigor"; "Kacheliba"; "Pokot South"]);
    ("Samburu", ["Samburu West"; "Samburu North"; "Samburu East"]);
    ("Trans-Nzoia", ["Kwanza"; "Endebess"; "Saboti"; "Kiminini"; "Cherangany"]);
    ("Uasin Gishu", ["Soy"; "Turbo"; "Moiben"; "Ainabkoi"; "Kapseret"; "Kesses"]);
    ("Elgeyo-Marakwet", ["Marakwet East"; "Marakwet West"; "Keiyo North"; "Keiyo South"]);
    ("Nandi", ["Tinderet"; "Aldai"; "Nandi Hills"; "Chesumei"; "Emgwen"; "Mosop"]);
    ("Baringo", ["Tiaty"; "Baringo North"; "Baringo Central"; "Baringo South"; "Mogotio"; "Eldama Ravine"]);
    ("Laikipia", ["Laikipia West"; "Laikipia East"; "Laikipia North"]);
    ("Nakuru", ["Molo"; "Njoro"; "Naivasha"; "Gilgil"; "Kuresoi South"; "Kuresoi North"; "Subukia"; "Rongai"; "Narok"; "Nakuru Town East"; "Nakuru Town West"]);
    ("Narok", ["Kilgoris"; "Emurua Dikirr"; "Narok North"; "Narok East"; "Narok South"; "Narok West"]);
    ("Kajiado", ["Kajiado North"; "Kajiado Central"; "Kajiado East"; "Kajiado West"; "Kajiado South"]);
    ("Kericho", ["Kipkelion East"; "Kipkelion West"; "Ainamoi"; "Bureti"; "Belgut"; "Sigowet–Soin"]);
    ("Bomet", ["Sotik"; "Chepalungu"; "Bomet East"; "Bomet Central"; "Konoin"]);
    ("Kakamega", ["Lugari"; "Likuyani"; "Malava"; "Lurambi"; "Navakholo"; "Mumias West"; "Mumias East"; "Matungu"; "Khwisero"; "Mutsami"; "Karaba"; "Butere"]);
    ("Vihiga", ["Vihiga"; "Sabatia"; "Hamisi"; "Luanda"; "Emuhaya"]);
    ("Bungoma", ["Mount Elgon"; "Sirisia"; "Kabuchai"; "Bumula"; "Kanduyi"; "Webuye East"; "Webuye West"; "Kimilili"; "Kimusi"]);
    ("Busia", ["Teso North"; "Teso South"; "Nambale"; "Matayos"; "Butula"; "Funyula"; "Budalangi"]);
    ("Siaya", ["Ugenya"; "Ugunja"; "Alego Usonga"; "Gem"; "Bondo"; "Rarieda"]);
    ("Kisumu", ["Kisumu East"; "Kisumu West"; "Kisumu Central"; "Seme"; "Nyando"; "Muhoroni"; "Nyakach"]);
    ("Homa Bay", ["Kasipul"; "Kabondo Kasipul"; "Karachuonyo"; "Rangwe"; "Homa Bay Town"; "Ndhiwa"; "Suba North"; "Suba South"]);
    ("Migori", ["Rongo"; "Awendo"; "Suna East"; "Suna West"; "Uriri"; "Nyatike"; "Kuria West"; "Kuria East"]);
    ("Kisii", ["Bonchari"; "South Mugirango"; "Bomachoge Borabu"; "Bobasi"; "Bomachoge Chache"; "Nyaribari Masaba"; "Nyaribari Chache"; "West Mugirango"; "Kitutu Masaba"]);
    ("Nyamira", ["Kitutu Masaba"; "West Mugirango"; "North Mugirango"; "Borabu"])
  ].

(** [arr.forEach((x, i) => ...)]: the elements paired with their indices. *)
Definition indexed {A} (l : list A) : list (nat * A) :=
  combine (seq 0 (length l)) l.

(** The rows pushed for one constituency: itself, then five wards. *)
Definition mock_constituency_rows (countyCode : nat) (county_ : string)
    (entry : nat * string) : list area :=
  let '(constIdx, const_) := entry in
  let cc := padStart0 3 (String_of_nat countyCode) in
  let ci := padStart0 2 (String_of_nat (constIdx + 1)) in
  {| name := const_;
     code := Some (cc +:+ "-" +:+ ci);
     type := "constituency";
     county := Some county_;
     constituency := None |}
  :: map (fun w =>
        {| name := const_ +:+ " Ward " +:+ String_of_nat w;
           code := Some (cc +:+ "-" +:+ ci +:+ "-" +:+ String_of_nat w);
           type := "ward";
           county := Some county_;
           constituency := Some const_ |}) (seq 1 5).

(** The rows pushed by one iteration of the loop over [countyData]. *)
Definition mock_county_rows (entry : nat * (string * list string)) : list area :=
  let '(i, (county_, constituencies_)) := entry in
  let countyCode := (i + 1)%nat in
  {| name := county_;
     code := Some (padStart0 3 (String_of_nat countyCode));
     type := "county";
     county := Some county_;
     constituency := None |}
  :: flat_map (mock_constituency_rows countyCode county_) (indexed constituencies_).

Definition getComprehensiveMockData : list area :=
  flat_map mock_county_rows (indexed countyData).

(** ** What the service hands out *)

(** An area object as the service hands it out.  Its properties are
    copied from wherever the service took them, so each of them but [type]
    may be absent. *)
Record row := mkRow {
  row_name : option string;
  row_code : option string;
  row_type : string;
  row_county : option string;
  row_constituency : option string
}.

(** A record of the data model, handed out as it is. *)
Definition as_row (item : area) : row :=
  {| row_name := Some (name item);
     row_code := code item;
     row_type := type item;
     row_county := county item;
     row_constituency := constituency item |}.

(** An entry of a county list, seen through the two properties the service
    reads; a property that the entry lacks is [None]. *)
Record county_entry := mkCounty {
  county_name : option string;
  county_code : option string
}.

Definition getMockCounties : list county_entry :=
  [ mkCounty (Some "Nairobi") (Some "047");
    mkCounty (Some "Mombasa") (Some "001");
    mkCounty (Some "Kiambu") (Some "022");
    mkCounty (Some "Nakuru") (Some "032");
    mkCounty (Some "Kisumu") (Some "042") ].

(** ** Remote payloads *)

(** A property that the code reads as an array, by how JavaScript reacts
    to it: a falsy value (absent, [null], [false], [0], the empty string) is
    skipped by the guards; a truthy value that is not an array has no
    callable [forEach]; an array is iterated, and reading a property of a
    [null] entry ([None]) raises a [TypeError]. *)
Inductive js_array (A : Type) : Type :=
  | Falsy
  | NotArray
  | Array (items : list (option A)).
Arguments Falsy {A}.
Arguments NotArray {A}.
Arguments Array {A} items.

(** The entries of an answer, seen through the properties the service
    reads; a property that the entry lacks is [None]. *)
Record ward_entry := mkWard {
  ward_name : option string;
  ward_code : option string
}.

Record constituency_entry := mkConstituency {
  constituency_name : option string;
  constituency_code : option string;
  constituency_wards : js_array ward_entry
}.

(** What a call of [_fetchJSON] can hand back: the text of a non-JSON
    response, or a decoded JSON value seen through the two properties the
    service reads ([counties] and [constituencies]); [Undefined] is the
    value of falling off the end of the function. *)
Inductive payload : Type :=
  | Undefined
  | Text (s : string)
  | JsonNull
  | JsonOther
  | JsonObject (counties_ : js_array county_entry)
               (constituencies_ : js_array constituency_entry).

(** ** The network *)

(** What becomes of the body of a response once its headers are in: it
    arrives in full, the connection breaks while it is read (the read
    rejects with a [TypeError]), or it never ends.  The abort timer is
    cleared when the headers arrive, so nothing bounds the read. *)
Inductive body_read : Type :=
  | Arrives
  | Breaks
  | Stalls.

Record response := mkResponse {
  status : nat;
  statusText : string;
  contentType : option string;     (* [res.headers.get('content-type')] *)
  body_arrival : body_read;
  body_text : string;              (* [await res.text()] *)
  body_json : option payload       (* [await res.json()]; [None]: not JSON *)
}.

(** [res.ok]: the status is in the range 200-299. *)
Definition ok (res : response) : bool :=
  ((200 <=? status res) && (status res <=? 299))%nat.

(** How the remote side treats one request; latencies in milliseconds. *)
Inductive reply : Type :=
  | Responds (latency : Z) (res : response)
  | Fails (latency : Z)      (* transport failure: [fetch] rejects, TypeError *)
  | Hangs.                   (* no answer at all *)

Definition fetch_options := list (string * string).

(** The remote side: the reply to the n-th request the page makes. *)
Definition network := nat -> string -> fetch_options -> reply.

(** ** Errors, completions and the world *)

Inductive js_error : Type :=
  | AbortError                      (* [err.name === 'AbortError'] *)
  | TypeError                       (* [err instanceof TypeError] *)
  | SyntaxError                     (* [res.json()] on a malformed body *)
  | PlainError (message : string).  (* [new Error(message)] *)

Inductive completion (A : Type) : Type :=
  | Returned (v : A)
  | Threw (e : js_error)
  | NeverSettles                    (* an awaited promise stays pending *)
  | OutOfFuel.
Arguments Returned {A} v.
Arguments Threw {A} e.
Arguments NeverSettles {A}.
Arguments OutOfFuel {A}.

Inductive event : Type :=
  | Fetch (url : string)      (* one call of [fetch] *)
  | Sleep (ms : Z)            (* [await new Promise(r => setTimeout(r, ms))] *)
  | CacheHas (key : string)
  | CacheGet (key : string)
  | CacheSet (key : string)
  | CacheClear.

(** The fields of a [DataService] instance. *)
Record DataService := mkDataService {
  apiBase : string;
  cache : gmap string (list row);
  useMockData : bool
}.

Record world := mkWorld {
  this : DataService;
  requests : nat;             (* number of [fetch] calls made so far *)
  trace : list event          (* effects so far, oldest first *)
}.

Definition M (A : Type) : Type := world -> completion A * world.

Definition ret {A} (v : A) : M A := fun w => (Returned v, w).
Definition throw {A} (e : js_error) : M A := fun w => (Threw e, w).
Definition out_of_fuel {A} : M A := fun w => (OutOfFuel, w).

Definition bind {A B} (m : M A) (k : A -> M B) : M B := fun w =>
  match m w with
  | (Returned v, w') => k v w'
  | (Threw e, w') => (Threw e, w')
  | (NeverSettles, w') => (NeverSettles, w')
  | (OutOfFuel, w') => (OutOfFuel, w')
  end.

(** [try { m } catch (err) { handler err }] *)
Definition try_catch {A} (m : M A) (handler : js_error -> M A) : M A := fun w =>
  match m w with
  | (Threw e, w') => handler e w'
  | r => r
  end.

Notation "x <- c1 ;; c2" := (bind c1 (fun x => c2))
  (at level 100, c1 at next level, right associativity).

Definition emit (e : event) : M unit := fun w =>
  (Returned tt, {| this := this w; requests := requests w; trace := trace w ++ [e] |}).

Definition get_this : M DataService := fun w => (Returned (this w), w).

Definition set_cache (c : gmap string (list row)) : M unit := fun w =>
  (Returned tt,
   {| this := {| apiBase := apiBase (this w); cache := c;
                 useMockData := useMockData (this w) |};
      requests := requests w; trace := trace w |}).

(** [new DataService()] *)
Definition DataService_new : DataService :=
  {| apiBase := "https://kenyaareadata.vercel.app/api";
     cache := ∅;
     useMockData := true |}.

(** ** The fetch wrapper *)

Definition String_of_status (n : nat) : string := String_of_nat n.

(** [err.name === 'AbortError' || err instanceof TypeError] *)
Definition isNetworkError (err : js_error) : bool :=
  match err with
  | AbortError | TypeError => true
  | _ => false
  end.

(** [Math.min(1000 * 2 ** attempt, 8000)] *)
Definition backoff (attempt : nat) : Z :=
  Z.min (1000 * 2 ^ Z.of_nat attempt) 8000.

(** [await res.json()] and [await res.text()]: the body is read to its end
    before it is decoded. *)
Definition read_body {A} (res : response) (decoded : completion A) : completion A :=
  match body_arrival res with
  | Arrives => decoded
  | Breaks => Threw TypeError
  | Stalls => NeverSettles
  end.

(** The [try] block of one loop iteration, given the remote side's reply:
    the abort timer wins unless the headers arrive before [timeout], and it
    is cleared before the body is read. *)
Definition attempt_result (timeout : Z) (r : reply) : completion payload :=
  match r with
  | Responds latency res =>
      if latency <? timeout then
        if negb (ok res) then
          Threw (PlainError (String_of_status (status res) +:+ " " +:+ statusText res))
        else
          let contentType_ := default "" (contentType res) in
          if includes contentType_ "application/json" then
            read_body res
              match body_json res with
              | Some data => Returned data
              | None => Threw SyntaxError
              end
          else read_body res (Returned (Text (body_text res)))
      else Threw AbortError
  | Fails latency => if latency <? timeout then Threw TypeError else Threw AbortError
  | Hangs => Threw AbortError
  end.

(** [String(x)] for a property that is a string or absent. *)
Definition String_of_property (x : option string) : string :=
  default "undefined" x.

(** [encodeURIComponent]: every byte outside the unreserved set
    [A-Z a-z 0-9 - _ . ! ~ * ' ( )] becomes [%XX]. *)
Definition hex_digit (n : N) : ascii :=
  ascii_of_N (if (n <? 10)%N then 48 + n else 55 + n).

Definition uri_unreserved (c : ascii) : bool :=
  let n := N_of_ascii c in
  (((65 <=? n) && (n <=? 90)) || ((97 <=? n) && (n <=? 122))
   || ((48 <=? n) && (n <=? 57))
   || existsb (N.eqb n) [45; 95; 46; 33; 126; 42; 39; 40; 41])%N.

Fixpoint encodeURIComponent (s : string) : string :=
  match s with
  | EmptyString => EmptyString
  | String c s' =>
      if uri_unreserved c then String c (encodeURIComponent s')
      else
        let n := N_of_ascii c in
        String "%" (String (hex_digit (n / 16)) (String (hex_digit (n mod 16))
          (encodeURIComponent s')))
  end.

(** [arr.forEach(x => ...)] where the callback reads properties of [x] and
    pushes onto a local array [acc]. *)
Fixpoint forEach_items {A} (items : list (option A))
    (f : A -> list row -> M (list row)) (acc : list row) : M (list row) :=
  match items with
  | [] => ret acc
  | None :: _ => throw TypeError
  | Some x :: rest => acc' <- f x acc ;; forEach_items rest f acc'
  end.

Definition forEach {A} (arr : js_array A)
    (f : A -> list row -> M (list row)) (acc : list row) : M (list row) :=
  match arr with
  | Array items => forEach_items items f acc
  | _ => throw TypeError
  end.

(** [for (const x of arr) { ... }] *)
Fixpoint for_of_items {A} (items : list (option A))
    (f : option A -> list row -> M (list row)) (acc : list row) : M (list row) :=
  match items with
  | [] => ret acc
  | x :: rest => acc' <- f x acc ;; for_of_items rest f acc'
  end.

Definition for_of {A} (arr : js_array A)
    (f : option A -> list row -> M (list row)) (acc : list row) : M (list row) :=
  match arr with
  | Array items => for_of_items items f acc
  | _ => throw TypeError
  end.

(** [(data && data.counties) ? data.counties : []] *)
Definition counties_of (data : payload) : js_array county_entry :=
  match data with
  | JsonObject (Array items) _ => Array items
  | JsonObject NotArray _ => NotArray
  | _ => Array []
  end.

(** [data.constituencies]: reading a property of [null] or [undefined]
    raises a [TypeError]; other non-objects have no such property. *)
Definition constituencies_of (data : payload) : M (js_array constituency_entry) :=
  match data with
  | Undefined | JsonNull => throw TypeError
  | Text _ | JsonOther => ret Falsy
  | JsonObject _ cs => ret cs
  end.

Definition county_row (county_ : county_entry) : row :=
  {| row_name := county_name county_;
     row_code := county_code county_;
     row_type := "county";
     row_county := county_name county_;
     row_constituency := None |}.

Definition constituency_row (countyName : option string)
    (c : constituency_entry) : row :=
  {| row_name := constituency_name c;
     row_code := constituency_code c;
     row_type := "constituency";
     row_county := countyName;
     row_constituency := None |}.

Definition ward_row (countyName : option string) (c : constituency_entry)
    (ward : ward_entry) : row :=
  {| row_name := ward_name ward;
     row_code := ward_code ward;
     row_type := "ward";
     row_county := countyName;
     row_constituency := constituency_name c |}.

(** The callback of [data.constituencies.forEach]: push the constituency,
    then, if it has [wards], each of its wards. *)
Definition push_constituency (countyName : option string)
    (constituency_ : constituency_entry) (areas : list row) : M (list row) :=
  let areas := areas ++ [constituency_row countyName constituency_] in
  match constituency_wards constituency_ with
  | Falsy => ret areas
  | wards_ =>
      forEach wards_
        (fun ward areas => ret (areas ++ [ward_row countyName constituency_ ward]))
        areas
  end.

(** [if (this.cache.has(key)) return this.cache.get(key)] *)
Definition cache_lookup (key : string) : M (option (list row)) := fun w =>
  match cache (this w) !! key with
  | Some v => (_ <- emit (CacheHas key) ;; _ <- emit (CacheGet key) ;; ret (Some v)) w
  | None => (_ <- emit (CacheHas key) ;; ret None) w
  end.

(** [this.cache.set(key, value)] *)
Definition cache_set (key : string) (value : list row) : M unit :=
  self <- get_this ;;
  _ <- set_cache (<[key := value]> (cache self)) ;;
  emit (CacheSet key).

(** [clearCache()] *)
Definition clearCache : M unit :=
  _ <- set_cache ∅ ;;
  emit CacheClear.

Section Service.
Variable net : network.

(** [await fetch(url, {...options, signal})] and the decoding after it. *)
Definition attempt_fetch (url : string) (options : fetch_options)
    (timeout : Z) : M payload := fun w =>
  (attempt_result timeout (net (requests w) url options),
   {| this := this w; requests := S (requests w);
      trace := trace w ++ [Fetch url] |}).

(** The [while (attempt <= retries)] loop of [_fetchJSON]. *)
Fixpoint fetch_loop (fuel : nat) (url : string) (options : fetch_options)
    (timeout : Z) (retries attempt : nat) : M payload :=
  match fuel with
  | O => out_of_fuel
  | S fuel' =>
      if (attempt <=? retries)%nat then
        try_catch (attempt_fetch url options timeout)
          (fun err =>
             if (attempt <? retries)%nat && isNetworkError err then
               _ <- emit (Sleep (backoff attempt)) ;;
               fetch_loop fuel' url options timeout retries (attempt + 1)
             else throw err)
      else ret Undefined
  end.

Definition _fetchJSON (url : string) (options : fetch_options)
    (timeout : Z) (retries : nat) : M payload :=
  fetch_loop (S retries) url options timeout retries 0.

Definition fetchCounties : M (js_array county_entry) :=
  try_catch
    (self <- get_this ;;
     if useMockData self then ret (Array (map Some getMockCounties))
     else
       data <- _fetchJSON (apiBase self +:+ "/counties") [] 8000 2 ;;
       ret (counties_of data))
    (fun error => ret (Array (map Some getMockCounties))).

(** The [try] block of [fetchAreasByCounty]; [countyName] is what the
    caller read from a county entry. *)
Definition fetchAreasByCounty_try (countyName : option string) : M (list row) :=
  self <- get_this ;;
  if useMockData self then
    ret (map as_row
           (List.filter
              (fun item => bool_decide (county item = countyName)
                           && negb (has_type "county" item))
              getComprehensiveMockData))
  else
    data <- _fetchJSON
              (apiBase self +:+ "/areas?county="
               +:+ encodeURIComponent (String_of_property countyName))
              [] 8000 2 ;;
    constituencies_ <- constituencies_of data ;;
    match constituencies_ with
    | Falsy => ret []
    | _ => forEach constituencies_ (push_constituency countyName) []
    end.

Definition fetchAreasByCounty (countyName : option string) : M (list row) :=
  try_catch (fetchAreasByCounty_try countyName) (fun error => ret []).

(** The body of the [for (const county of counties)] loop. *)
Definition add_county_areas (county_ : option county_entry)
    (allAreas : list row) : M (list row) :=
  try_catch
    (match county_ with
     | None => throw TypeError
     | Some c =>
         areas <- fetchAreasByCounty (county_name c) ;;
         ret (allAreas ++ areas)
     end)
    (fun error => ret allAreas).

(** The part of [fetchAllAreas] after the cache check: the county rows,
    then the rows of each county in county-list order. *)
Definition assembleAllAreas : M (list row) :=
  counties_ <- fetchCounties ;;
  allAreas <- forEach counties_
                (fun county_ allAreas => ret (allAreas ++ [county_row county_])) [] ;;
  allAreas <- for_of counties_ add_county_areas allAreas ;;
  _ <- cache_set "allAreas" allAreas ;;
  ret allAreas.

(** The [try] block of [fetchAllAreas]. *)
Definition fetchAllAreas_try : M (list row) :=
  self <- get_this ;;
  if useMockData self then ret (map as_row getComprehensiveMockData)
  else
    cached <- cache_lookup "allAreas" ;;
    match cached with
    | Some allAreas => ret allAreas
    | None => assembleAllAreas
    end.

Definition fetchAllAreas : M (list row) :=
  try_catch fetchAllAreas_try
    (fun error => ret (map as_row getComprehensiveMockData)).
End Service.

(** ** Sorting *)

(** [Array.prototype.sort(compare)]: a stable sort; an element goes before
    the first one it does not compare greater than. *)
Fixpoint insert_sorted {A} (compare : A -> A -> Z) (x : A) (l : list A) : list A :=
  match l with
  | [] => [x]
  | y :: l' => if compare x y <=? 0 then x :: l else y :: insert_sorted compare x l'
  end.

Fixpoint js_sort {A} (compare : A -> A -> Z) (l : list A) : list A :=
  match l with
  | [] => []
  | x :: l' => insert_sorted compare x (js_sort compare l')
  end.

(** [const typeOrder = { county: 1, constituency: 2, ward: 3 }] *)
Definition typeOrder (t : string) : option Z :=
  if String.eqb t "county" then Some 1
  else if String.eqb t "constituency" then Some 2
  else if String.eqb t "ward" then Some 3
  else None.

(** Arrays live in a heap: a location holds the elements of one array. *)
Definition loc := nat.

Section Sorting.
(** [a.localeCompare(b)]: the collation of the host, negative, zero or
    positive. *)
Variable localeCompare : string -> string -> Z.

Definition compare_name (a b : area) : Z := localeCompare (name a) (name b).
Definition compare_name_desc (a b : area) : Z := localeCompare (name b) (name a).

(** The comparator of the ['type'] case; a type outside [typeOrder] makes
    the difference [NaN], which [sort] treats as zero. *)
Definition compare_type (a b : area) : Z :=
  match typeOrder (type a), typeOrder (type b) with
  | Some ta, Some tb =>
      let typeCompare := ta - tb in
      if negb (typeCompare =? 0) then typeCompare
      else localeCompare (name a) (name b)
  | _, _ => 0
  end.

(** The [switch (sortBy)] applied to the elements of [sorted]. *)
Definition sort_switch (sortBy : string) (sorted : list area) : list area :=
  if String.eqb sortBy "name" then js_sort compare_name sorted
  else if String.eqb sortBy "name-desc" then js_sort compare_name_desc sorted
  else if String.eqb sortBy "type" then js_sort compare_type sorted
  else sorted.

(** [sortData(data, sortBy)] on the heap: [[...data]] allocates a new
    array, [sort] reorders that array in place and returns it.  [None]
    when [data] is not an array of the heap. *)
Definition sortData (data : loc) (sortBy : string)
    (h : gmap loc (list area)) : option (loc * gmap loc (list area)) :=
  match h !! data with
  | None => None
  | Some items =>
      let sorted := fresh (dom h) in
      let h1 := <[sorted := items]> h in
      Some (sorted, alter (sort_switch sortBy) sorted h1)
  end.
End Sorting.

(** ** Filtering: [App.applyFilters] *)

(** The [value]s of the four controls read by [applyFilters]. *)
Record controls := mkControls {
  search_input : string;
  filter_county : string;
  filter_type : string;
  sort_by : string
}.

Record App := mkApp {
  currentData : list area;
  filteredData : list area
}.

Definition matchesSearch (searchTerm : string) (item : area) : bool :=
  negb (truthy searchTerm)
  || includes (toLowerCase (name item)) searchTerm
  || match county item with
     | Some c => truthy c && includes (toLowerCase c) searchTerm
     | None => false
     end.

Definition matchesCounty (selectedCounty : string) (item : area) : bool :=
  negb (truthy selectedCounty) || bool_decide (county item = Some selectedCounty).

Definition matchesType (selectedType : string) (item : area) : bool :=
  negb (truthy selectedType) || String.eqb (type item) selectedType.

(** [this.currentData.filter(item => ...)] with the controls as read. *)
Definition filter_step (dom_ : controls) (data : list area) : list area :=
  let searchTerm := toLowerCase (search_input dom_) in
  let selectedCounty := filter_county dom_ in
  let selectedType := filter_type dom_ in
  List.filter
    (fun item =>
       matchesSearch searchTerm item
       && matchesCounty selectedCounty item
       && matchesType selectedType item)
    data.

(** [applyFilters()]: filter, then sort; the result is what is rendered. *)
Definition applyFilters (localeCompare : string -> string -> Z)
    (dom_ : controls) (app : App) : App :=
  let filtered := filter_step dom_ (currentData app) in
  {| currentData := currentData app;
     filteredData := sort_switch localeCompare (sort_by dom_) filtered |}.

(** ** Debounce *)

Section Debounce.
(** The arguments a trigger passes to the debounced function. *)
Context {Args : Type}.

(** The timers of the page and the closure of one [debounce(func, wait)]:
    pending timers (identifier, due time, arguments captured by [later]),
    the closure variable [timeout], and the calls of [func] so far. *)
Record runtime := mkRuntime {
  timer_queue : list (nat * (Z * Args));
  next_timer : nat;
  timeout_ : option nat;
  calls : list (Z * Args)
}.

Definition runtime_init : runtime :=
  {| timer_queue := []; next_timer := 1; timeout_ := None; calls := [] |}.

(** [clearTimeout(id)]; [undefined] and unknown identifiers are ignored. *)
Definition clearTimeout (id : option nat) (rt : runtime) : runtime :=
  match id with
  | None => rt
  | Some i =>
      {| timer_queue := List.filter (fun t => negb (Nat.eqb (fst t) i)) (timer_queue rt);
         next_timer := next_timer rt; timeout_ := timeout_ rt; calls := calls rt |}
  end.

(** [setTimeout(later, wait)] at time [now]; a negative delay counts as 0. *)
Definition setTimeout (now wait : Z) (args : Args) (rt : runtime) : nat * runtime :=
  let id := next_timer rt in
  (id,
   {| timer_queue := timer_queue rt ++ [(id, (now + Z.max 0 wait, args))];
      next_timer := S id; timeout_ := timeout_ rt; calls := calls rt |}).

(** [later]: [clearTimeout(timeout); func(...args)], run at time [now]. *)
Definition later (now : Z) (args : Args) (rt : runtime) : runtime :=
  let rt := clearTimeout (timeout_ rt) rt in
  {| timer_queue := timer_queue rt; next_timer := next_timer rt;
     timeout_ := timeout_ rt; calls := calls rt ++ [(now, args)] |}.

(** [executedFunction(...args)] called at time [now]. *)
Definition executedFunction (wait now : Z) (args : Args) (rt : runtime) : runtime :=
  let rt := clearTimeout (timeout_ rt) rt in
  let '(id, rt) := setTimeout now wait args rt in
  {| timer_queue := timer_queue rt; next_timer := next_timer rt;
     timeout_ := Some id; calls := calls rt |}.

(** The pending timer that is due first (the older one on a tie). *)
Fixpoint earliest (q : list (nat * (Z * Args))) : option (nat * (Z * Args)) :=
  match q with
  | [] => None
  | t :: q' =>
      match earliest q' with
      | Some t' => if fst (snd t) <=? fst (snd t') then Some t else Some t'
      | None => Some t
      end
  end.

(** The event loop up to time [bound] ([None]: until no timer is left):
    a timer that is due at or before [bound] is removed and its callback
    runs at its due time. *)
Fixpoint run_timers (fuel : nat) (bound : option Z) (rt : runtime) : runtime :=
  match fuel with
  | O => rt
  | S fuel' =>
      match earliest (timer_queue rt) with
      | Some (id, (due, args)) =>
          if match bound with Some b => due <=? b | None => true end then
            let rt := {| timer_queue :=
                           List.filter (fun t => negb (Nat.eqb (fst t) id)) (timer_queue rt);
                         next_timer := next_timer rt; timeout_ := timeout_ rt;
                         calls := calls rt |} in
            run_timers fuel' bound (later due args rt)
          else rt
      | None => rt
      end
  end.

Definition advance (bound : option Z) (rt : runtime) : runtime :=
  run_timers (length (timer_queue rt)) bound rt.

(** A trigger at time [t]: the timers due by then have fired. *)
Definition trigger (wait : Z) (rt : runtime) (tr : Z * Args) : runtime :=
  executedFunction wait (fst tr) (snd tr) (advance (Some (fst tr)) rt).

(** [debounce(func, wait)]: the closure starts with [timeout] undefined. *)
Definition debounce (rt : runtime) : runtime :=
  {| timer_queue := timer_queue rt; next_timer := next_timer rt;
     timeout_ := None; calls := calls rt |}.

(** The calls of [func] caused by a sequence of triggers of the debounced
    function, once the page has gone quiet. *)
Definition debounced_calls (wait : Z) (triggers : list (Z * Args)) : list (Z * Args) :=
  calls (advance None (fold_left (trigger wait) triggers (debounce runtime_init))).

(** The maximal bursts of a trigger sequence: a trigger less than [wait]
    after the previous one continues its burst. *)
Fixpoint bursts (wait : Z) (triggers : list (Z * Args)) : list (list (Z * Args)) :=
  match triggers with
  | [] => []
  | tr :: rest =>
      match rest with
      | [] => [[tr]]
      | next :: _ =>
          match bursts wait rest with
          | b :: bs =>
              if fst next - fst tr <? wait then (tr :: b) :: bs else [tr] :: b :: bs
          | [] => [[tr]]
          end
      end
  end.

(** The call a burst ends in: [wait] after its last trigger, with that
    trigger's arguments. *)
Definition burst_call (wait : Z) (b : list (Z * Args)) : list (Z * Args) :=
  match b with
  | [] => []
  | tr :: b' => let '(t, args) := List.last b' tr in [(t + wait, args)]
  end.

(** Within a burst every trigger comes less than [wait] after the one
    before it. *)
Fixpoint close_run (wait : Z) (b : list (Z * Args)) : Prop :=
  match b with
  | tr :: ((next :: _) as b') => fst next - fst tr < wait /\ close_run wait b'
  | _ => True
  end.

(** A burst starts at least [wait] after the last trigger of the burst
    before it. *)
Fixpoint separated (wait : Z) (bs : list (list (Z * Args))) : Prop :=
  match bs with
  | (tr :: b) :: (((next :: _) :: _) as bs') =>
      wait <= fst next - fst (List.last b tr) /\ separated wait bs'
  | _ => True
  end.
End Debounce.
Arguments runtime Args : clear implicits.

(** ** Definitions used to state the properties *)

(** The code-unit order of strings, as a comparator. *)
Definition lexCompare (a b : string) : Z :=
  match String.compare a b with Lt => -1 | Eq => 0 | Gt => 1 end.

(** The number of records of a given type. *)
Fixpoint count_type (t : string) (R : list area) : nat :=
  match R with
  | [] => 0
  | r :: R' => ((if String.eqb (type r) t then 1 else 0) + count_type t R')%nat
  end.

(** A failed attempt that the retry loop may repeat. *)
Definition retryable (c : completion payload) : bool :=
  match c with
  | Threw e => isNetworkError e
  | _ => false
  end.

(** The effects of attempts [first], ..., [first + more]: one request each,
    with the back-off delay of the failed attempt in between. *)
Fixpoint attempts_trace (url : string) (first more : nat) : list event :=
  match more with
  | O => [Fetch url]
  | S more' => Fetch url :: Sleep (backoff first) :: attempts_trace url (S first) more'
  end.

Definition is_fetch (e : event) : bool :=
  match e with Fetch _ => true | _ => false end.

(** The back-off delays in a trace, oldest first. *)
Fixpoint delays (t : list event) : list Z :=
  match t with
  | [] => []
  | Sleep ms :: t' => ms :: delays t'
  | _ :: t' => delays t'
  end.

(** The number of rows of a given type. *)
Fixpoint count_rows (t : string) (rows : list row) : nat :=
  match rows with
  | [] => 0
  | r :: rows' => ((if String.eqb (row_type r) t then 1 else 0) + count_rows t rows')%nat
  end.

(** What each county adds in the loop of [fetchAllAreas]: the rows its
    own sub-fetch returned, starting from world [w]. *)
Fixpoint county_contributions (net : network) (cs : list county_entry)
    (w : world) : list (list row) :=
  match cs with
  | [] => []
  | c :: cs' =>
      let r := fetchAreasByCounty net (county_name c) w in
      match fst r with
      | Returned areas => areas
      | _ => []
      end :: county_contributions net cs' (snd r)
  end.

(** The two ways in which a computation may fail to complete: the retry
    loop runs out of fuel, or a promise it awaits stays pending. *)
Inductive stop : Type :=
  | Exhausted
  | Waiting.

Definition stopped {A} (s : stop) : completion A :=
  match s with
  | Exhausted => OutOfFuel
  | Waiting => NeverSettles
  end.

(** A computation that never stops in the way [s]. *)
Definition avoids {A} (s : stop) (m : M A) : Prop :=
  forall w, fst (m w) <> stopped s.

(** A computation that never runs out of fuel. *)
Definition halts {A} (m : M A) : Prop := avoids Exhausted m.

(** A computation that never waits for ever. *)
Definition settles {A} (m : M A) : Prop := avoids Waiting m.

(** A computation that never raises. *)
Definition never_throws {A} (m : M A) : Prop := forall w e, fst (m w) <> Threw e.

(** A remote side whose response bodies never stall. *)
Definition no_stalled_body (net : network) : Prop :=
  forall n url options latency res,
    net n url options = Responds latency res -> body_arrival res <> Stalls.

(** A computation that always returns a value. *)
Definition returns {A} (m : M A) : Prop := forall w, exists v, fst (m w) = Returned v.

(** Every value the computation can return satisfies [Q]. *)
Definition yields {A} (m : M A) (Q : A -> Prop) : Prop :=
  forall w v, fst (m w) = Returned v -> Q v.

(** A service switched to the remote source, and a fresh world for it. *)
Definition live_service : DataService :=
  {| apiBase := "https://kenyaareadata.vercel.app/api";
     cache := ∅;
     useMockData := false |}.

Definition world_of (service : DataService) : world :=
  {| this := service; requests := 0; trace := [] |}.

Definition json_response (data : payload) : response :=
  {| status := 200; statusText := "OK";
     contentType := Some "application/json; charset=utf-8";
     body_arrival := Arrives;
     body_text := ""; body_json := Some data |}.

(** A remote source with two counties: the areas of Kwale cannot be
    served (status 500), those of Lamu are one constituency with one ward. *)
Definition sample_network : network := fun _ url _ =>
  if String.eqb url "https://kenyaareadata.vercel.app/api/counties" then
    Responds 120 (json_response
      (JsonObject (Array [Some (mkCounty (Some "Kwale") (Some "002"));
                          Some (mkCounty (Some "Lamu") (Some "005"))]) Falsy))
  else if String.eqb url "https://kenyaareadata.vercel.app/api/areas?county=Kwale" then
    Responds 80 {| status := 500; statusText := "Internal Server Error";
                   contentType := None; body_arrival := Arrives;
                   body_text := ""; body_json := None |}
  else if String.eqb url "https://kenyaareadata.vercel.app/api/areas?county=Lamu" then
    Responds 90 (json_response
      (JsonObject Falsy
         (Array [Some (mkConstituency (Some "Lamu East") (Some "005-01")
                         (Array [Some (mkWard (Some "Faza") (Some "005-01-01"))]))])))
  else Fails 10.

(** A remote source whose county list is an object, not an array. *)
Definition malformed_network : network := fun _ _ _ =>
  Responds 100 (json_response (JsonObject NotArray Falsy)).


(** A remote source that cannot be reached: every request fails at once. *)
Definition unreachable_network : network := fun _ _ _ => Fails 10.

(** A remote source that sends the headers of an answer and then nothing. *)
Definition stalling_network : network := fun _ _ _ =>
  Responds 100 {| status := 200; statusText := "OK";
                  contentType := Some "application/json";
                  body_arrival := Stalls;
                  body_text := ""; body_json := Some JsonNull |}.

(** An optional name that is present and not empty. *)
Definition filled (o : option string) : bool :=
  match o with
  | Some s => truthy s
  | None => false
  end.

(** [item.type === t] for a row. *)
Definition row_has_type (t : string) (r : row) : bool := String.eqb (row_type r) t.







(** The completion of the request made [i] requests after world [w]. *)
Definition nth_attempt (net : network) (url : string) (options : fetch_options)
    (timeout : Z) (w : world) (i : nat) : completion payload :=
  attempt_result timeout (net (requests w + i)%nat url options).



(** The filter criteria as the specification words them. *)

(** [term] occurs in [field], letter case ignored. *)
Definition ci_includes (field term : string) : Prop :=
  includes (toLowerCase field) (toLowerCase term) = true.

(** The search criterion: a match against the name or, when the record has
    one, against the county. *)
Definition search_matches (term : string) (r : area) : Prop :=
  ci_includes (name r) term
  \/ exists c, county r = Some c /\ ci_includes c term.

(** Every active (non-empty) criterion matches the record. *)
Definition criteria_match (c : controls) (r : area) : Prop :=
  (search_input c <> "" -> search_matches (search_input c) r)
  /\ (filter_county c <> "" -> county r = Some (filter_county c))
  /\ (filter_type c <> "" -> type r = filter_type c).

(** The records of the filter scenario. *)
Definition scenario_records : list area :=
  [ mkArea "Nairobi" None "county" None None;
    mkArea "Westlands" None "constituency" (Some "Nairobi") None;
    mkArea "Parklands" None "ward" (Some "Nairobi") (Some "Westlands");
    mkArea "Highridge" None "ward" (Some "Nairobi") (Some "Westlands") ].

(** The records of the sorting tests, and a heap holding them. *)
Definition sort_records : list area :=
  [ mkArea "Charlie" None "ward" None None;
    mkArea "Alpha" None "county" None None;
    mkArea "Bravo" None "constituency" None None ].

Definition sort_heap : gmap loc (list area) := {[ 0%nat := sort_records ]}.

(** States of the debounce closure: no timer is pending, the calls so far
    being [c]. *)
Definition idle {Args} (rt : runtime Args) (c : list (Z * Args)) : Prop :=
  timer_queue rt = [] /\ calls rt = c.

(** Exactly the timer of the last trigger [(t, args)] is pending. *)
Definition pending {Args} (wait : Z) (rt : runtime Args) (t : Z) (args : Args)
    (c : list (Z * Args)) : Prop :=
  exists id, timer_queue rt = [(id, (t + wait, args))]
             /\ timeout_ rt = Some id /\ calls rt = c.

(** ** More of the data service *)

(** [set.add(x)]: a value already in the set is not added again. *)
Fixpoint Set_add (x : string) (s : list string) : list string :=
  match s with
  | [] => [x]
  | y :: s' => if String.eqb x y then s else y :: Set_add x s'
  end.

(** [new Set(values)]: the distinct values, in order of first occurrence. *)
Definition Set_from (values : list string) : list string :=
  fold_left (fun s x => Set_add x s) values [].

(** [getUniqueCounties(data)]; [codeUnitCompare] is the order [sort()]
    uses when it is given no comparator. *)
Definition getUniqueCounties (codeUnitCompare : string -> string -> Z)
    (data : list area) : list string :=
  let counties_ :=
    Set_from
      (map (fun item => match county item with Some c => c | None => "" end)
         (List.filter (fun item => filled (county item)) data)) in
  js_sort codeUnitCompare counties_.

(** The rank of a record in the ['type'] order: the rank of its type, then
    its name. *)
Definition type_then_name (localeCompare : string -> string -> Z)
    (a b : area) : Prop :=
  match typeOrder (type a), typeOrder (type b) with
  | Some ta, Some tb =>
      ta < tb \/ (ta = tb /\ localeCompare (name a) (name b) <= 0)
  | _, _ => False
  end.

(** A remote source that fails twice (no answer, then a transport failure)
    and answers the third request. *)
Definition flaky_network : network := fun n _ _ =>
  match n with
  | O => Hangs
  | S O => Fails 20
  | _ => Responds 50 (json_response JsonNull)
  end.

(** The sum of a list of delays. *)
Definition total_delay (ds : list Z) : Z := fold_right Z.add 0 ds.

(** A computation that leaves the fields of the service alone and makes at
    most [n] requests. *)
Definition quiet {A} (m : M A) (n : nat) : Prop :=
  forall w,
    this (snd (m w)) = this w
    /\ (requests w <= requests (snd (m w)) <= requests w + n)%nat.

(** The wards listed under a constituency entry. *)
Definition wards_of (c : constituency_entry) : list ward_entry :=
  match constituency_wards c with
  | Array items => omap id items
  | _ => []
  end.

(** A constituency entry whose [wards], if any, is an array without [null]
    entries. *)
Definition wards_well_formed (c : constituency_entry) : Prop :=
  match constituency_wards c with
  | Falsy => True
  | NotArray => False
  | Array items => Forall (fun o => o <> None) items
  end.

(** The rows of one constituency entry: itself, then its wards. *)
Definition constituency_rows (countyName : option string)
    (c : constituency_entry) : list row :=
  constituency_row countyName c :: map (ward_row countyName c) (wards_of c).

(** A county list that makes the assembly of [fetchAllAreas] raise: a value
    that is not an array, or an array with a [null] entry. *)
Definition malformed_list (counties_ : js_array county_entry) : Prop :=
  match counties_ with
  | Array items => In None items
  | _ => True
  end.

(** The address of the areas of a county. *)
Definition areas_url (service : DataService) (countyName : option string) : string :=
  apiBase service +:+ "/areas?county="
  +:+ encodeURIComponent (String_of_property countyName).

(** Two spellings of one name: with the letter U+00E9, and with the letter
    e followed by the combining accent U+0301 (as UTF-8 bytes). *)
Definition cafe_composed : string :=
  String "C" (String "a" (String "f" (String "195" (String "169" EmptyString)))).

Definition cafe_decomposed : string :=
  String "C" (String "a" (String "f"
    (String "e" (String "204" (String "129" EmptyString))))).

(** The composed form of a string, as far as this accent goes. *)
Fixpoint compose_accent (s : string) : string :=
  match s with
  | EmptyString => EmptyString
  | String "e" (String "204" (String "129" s')) =>
      String "195" (String "169" (compose_accent s'))
  | String c s' => String c (compose_accent s')
  end.

(** A collation that, as [localeCompare] must, returns 0 on canonically
    equivalent strings: the code-unit order of the composed forms. *)
Definition canonCompare (a b : string) : Z :=
  lexCompare (compose_accent a) (compose_accent b).

(** ** Helper functions (utils/helpers.js) *)

(** An argument of a helper, by [typeof]: a string or something else. *)
Inductive js_value : Type :=
  | VString (s : string)
  | VNumber (z : Z)
  | VBoolean (b : bool)
  | VNull
  | VUndefined.

(** [s.replace(/c/g, by)] for a single character [c] and a replacement
    without [$] patterns. *)
Fixpoint replace_char (c : ascii) (by_ : string) (s : string) : string :=
  match s with
  | EmptyString => EmptyString
  | String x s' =>
      if Ascii.eqb x c then by_ +:+ replace_char c by_ s'
      else String x (replace_char c by_ s')
  end.

(** The double quote and the apostrophe. *)
Definition dquote : ascii := "034"%char.
Definition squote : ascii := "039"%char.

(** [escapeHTML(unsafe)] *)
Definition escapeHTML (unsafe : js_value) : string :=
  match unsafe with
  | VString s =>
      replace_char squote "&#039;"
        (replace_char dquote "&quot;"
           (replace_char ">" "&gt;"
              (replace_char "<" "&lt;"
                 (replace_char "&" "&amp;" s))))
  | _ => ""
  end.

(** What one character becomes under [escapeHTML]. *)
Definition escape_char (x : ascii) : string :=
  if Ascii.eqb x "&" then "&amp;"
  else if Ascii.eqb x "<" then "&lt;"
  else if Ascii.eqb x ">" then "&gt;"
  else if Ascii.eqb x dquote then "&quot;"
  else if Ascii.eqb x squote then "&#039;"
  else String x EmptyString.

Fixpoint escape_each (s : string) : string :=
  match s with
  | EmptyString => EmptyString
  | String x s' => escape_char x +:+ escape_each s'
  end.

(** The characters with a meaning in HTML markup. *)
Definition html_special (x : ascii) : bool :=
  Ascii.eqb x "&" || Ascii.eqb x "<" || Ascii.eqb x ">"
  || Ascii.eqb x dquote || Ascii.eqb x squote.

Definition list_of_string (s : string) : list ascii := list_ascii_of_string s.

(** [validateInput] works on UTF-16 code units: [trim] and [\s] are defined
    on them. *)

(** WhiteSpace and LineTerminator code points of ECMAScript. *)
Definition is_white_space (u : N) : bool :=
  (existsb (N.eqb u)
     [9; 10; 11; 12; 13; 32; 160; 5760; 8232; 8233; 8239; 8287; 12288; 65279]
   || ((8192 <=? u) && (u <=? 8202)))%N.

(** The class [[A-Za-z0-9 .,!?-]]. *)
Definition input_allowed (u : N) : bool :=
  (((65 <=? u) && (u <=? 90)) || ((97 <=? u) && (u <=? 122))
   || ((48 <=? u) && (u <=? 57))
   || existsb (N.eqb u) [32; 46; 44; 33; 63; 45])%N.

Fixpoint trimStart (v : list N) : list N :=
  match v with
  | u :: v' => if is_white_space u then trimStart v' else v
  | [] => []
  end.

(** [v.trim()] *)
Definition trim (v : list N) : list N := rev (trimStart (rev (trimStart v))).

(** [v.replace(/\s+/g, ' ')]: every maximal run of white space becomes one
    space. *)
Fixpoint collapse_spaces (v : list N) : list N :=
  match v with
  | [] => []
  | u :: v' =>
      if is_white_space u then
        match v' with
        | u' :: _ => if is_white_space u' then collapse_spaces v'
                     else 32%N :: collapse_spaces v'
        | [] => [32%N]
        end
      else u :: collapse_spaces v'
  end.

(** [validateInput(value)] for a string of code units; [None] stands for a
    value that is not a string. *)
Definition validateInput (value : option (list N)) : list N :=
  match value with
  | None => []
  | Some value =>
      let v := trim value in
      let v := List.filter input_allowed v in
      collapse_spaces v
  end.

(** No two neighbours are both spaces. *)
Fixpoint no_double_space (v : list N) : Prop :=
  match v with
  | u :: ((u' :: _) as v') => ~ (u = 32%N /\ u' = 32%N) /\ no_double_space v'
  | _ => True
  end.

(** The code units of an ASCII string. *)
Definition code_units (s : string) : list N :=
  map N_of_ascii (list_ascii_of_string s).

(** * Properties *)

(** ** Statistics *)

Lemma filter_has_type_length t R :
  length (List.filter (has_type t) R) = count_type t R.
Proof.
  induction R as [|r R IH]; [reflexivity|].
  cbn [List.filter count_type]. unfold has_type at 1.
  destruct (String.eqb (type r) t); cbn [length]; lia.
Qed.

Lemma count_type_partition R :
  Forall (fun r => valid_type r = true) R ->
  (count_type "county" R + count_type "constituency" R + count_type "ward" R
   = length R)%nat.
Proof.
  induction 1 as [|r R Hr _ IH]; [reflexivity|].
  cbn [count_type length].
  unfold valid_type, has_type in Hr.
  destruct (String.eqb_spec (type r) "county") as [E|_];
    [rewrite E; cbn; lia|].
  destruct (String.eqb_spec (type r) "constituency") as [E|_];
    [rewrite E; cbn; lia|].
  destruct (String.eqb_spec (type r) "ward") as [E|_]; [cbn; lia|].
  discriminate.
Qed.

(** C4. [calculateStatistics] is a total function of the collection alone:
    [total] is its length, each of [counties], [constituencies] and [wards]
    is the number of records of that type, the three add up to [total] for
    records typed by the data model's enumeration, and the empty collection
    gives zero counts. *)
Theorem calculateStatistics_counts (R : list area) :
  let s := calculateStatistics R in
  total s = length R
  /\ counties s = count_type "county" R
  /\ constituencies s = count_type "constituency" R
  /\ wards s = count_type "ward" R
  /\ (Forall (fun r => valid_type r = true) R ->
      (counties s + constituencies s + wards s = total s)%nat)
  /\ calculateStatistics [] = {| counties := 0; constituencies := 0; wards := 0; total := 0 |}.
Proof.
  simpl. rewrite !filter_has_type_length.
  repeat split; try reflexivity.
  apply count_type_partition.
Qed.

(** The scenario of the test-suite: one county, one constituency, two wards. *)
Lemma calculateStatistics_counts_witness :
  let R := [ mkArea "Nairobi" None "county" None None;
             mkArea "Westlands" None "constituency" (Some "Nairobi") None;
             mkArea "Parklands" None "ward" (Some "Nairobi") (Some "Westlands");
             mkArea "Highridge" None "ward" (Some "Nairobi") (Some "Westlands") ] in
  Forall (fun r => valid_type r = true) R
  /\ calculateStatistics R = {| counties := 1; constituencies := 1; wards := 2; total := 4 |}
  /\ (counties (calculateStatistics R) + constituencies (calculateStatistics R)
      + wards (calculateStatistics R) = total (calculateStatistics R))%nat.
Proof.
  intros R.
  assert (HR : Forall (fun r => valid_type r = true) R)
    by (repeat constructor).
  split; [exact HR|]. split; [reflexivity|].
  destruct (calculateStatistics_counts R) as (_ & _ & _ & _ & Hsum & _).
  exact (Hsum HR).
Defined.

(** ** The fetch wrapper *)

Section FetchJSON.
Variable net : network.
Variables (url : string) (options : fetch_options) (timeout : Z) (retries : nat).

Local Abbreviation nth_attempt := (nth_attempt net url options timeout).

Lemma attempt_result_fuel r : attempt_result timeout r <> OutOfFuel.
Proof.
  destruct r as [latency res| latency |]; simpl; try discriminate.
  - destruct (latency <? timeout); [|discriminate].
    destruct (negb (ok res)); [discriminate|].
    unfold read_body.
    destruct (includes _ _), (body_arrival res); try discriminate.
    destruct (body_json res); discriminate.
  - destruct (latency <? timeout); discriminate.
Qed.

Lemma attempt_result_settles r :
  no_stalled_body net -> forall n, r = net n url options ->
  attempt_result timeout r <> NeverSettles.
Proof.
  intros Hnet n ->.
  destruct (net n url options) as [latency res| latency |] eqn:Hreply;
    simpl; try discriminate.
  - destruct (latency <? timeout); [|discriminate].
    destruct (negb (ok res)); [discriminate|].
    pose proof (Hnet _ _ _ _ _ Hreply) as Hbody.
    unfold read_body.
    destruct (includes _ _), (body_arrival res); try discriminate;
      try (now elim Hbody).
    destruct (body_json res); discriminate.
  - destruct (latency <? timeout); discriminate.
Qed.

(** The loop stops at the first attempt that is not a retryable failure,
    or at attempt [retries]; that attempt's completion is the result. *)
Lemma fetch_loop_stops fuel : forall attempt w,
  (attempt <= retries)%nat -> (retries - attempt < fuel)%nat ->
  exists n,
    (attempt + n <= retries)%nat
    /\ fst (fetch_loop net fuel url options timeout retries attempt w) = nth_attempt w n
    /\ trace (snd (fetch_loop net fuel url options timeout retries attempt w))
       = trace w ++ attempts_trace url attempt n
    /\ requests (snd (fetch_loop net fuel url options timeout retries attempt w))
       = (requests w + S n)%nat
    /\ this (snd (fetch_loop net fuel url options timeout retries attempt w)) = this w
    /\ (forall j, (j < n)%nat -> retryable (nth_attempt w j) = true)
    /\ ((attempt + n < retries)%nat -> retryable (nth_attempt w n) = false).
Proof.
  induction fuel as [|fuel IH]; intros attempt w Hle Hfuel; [lia|].
  cbn [fetch_loop].
  destruct (Nat.leb_spec attempt retries) as [_|]; [|lia].
  unfold try_catch, attempt_fetch.
  pose proof (attempt_result_fuel (net (requests w) url options)) as Hnf.
  assert (H0 : nth_attempt w 0 = attempt_result timeout (net (requests w) url options))
    by (unfold nth_attempt; now rewrite Nat.add_0_r).
  destruct (attempt_result timeout (net (requests w) url options)) as [v|e| |] eqn:Hres;
    [| | |congruence].
  - exists 0%nat. cbn [fst snd trace requests this attempts_trace].
    rewrite H0. repeat split; try reflexivity; try lia.
  - destruct (Nat.ltb_spec attempt retries) as [Hlt|Hge];
      [destruct (isNetworkError e) eqn:Hnet|]; cbn [andb].
    + (* retry *)
      unfold bind, emit.
      set (w1 := {| this := _; requests := _; trace := _ |}).
      destruct (IH (attempt + 1)%nat w1) as (n & Hn & Hc & Ht & Hr & Hs & Hall & Hlast);
        [lia|lia|].
      assert (Hshift : forall i, nth_attempt w1 i = nth_attempt w (S i)).
      { intros i. unfold nth_attempt, w1. cbn [requests].
        now replace (S (requests w) + i)%nat with (requests w + S i)%nat by lia. }
      exists (S n). rewrite Hc, Ht, Hr, Hs.
      unfold w1 at 2 3 4. cbn [trace requests this attempts_trace].
      rewrite Hshift. repeat split; try reflexivity; try lia.
      * rewrite <- !app_assoc. cbn [app].
        now replace (attempt + 1)%nat with (S attempt) by lia.
      * intros [|j] Hj.
        -- rewrite H0. cbn [retryable]. exact Hnet.
        -- rewrite <- Hshift. apply Hall. lia.
      * intros Hn'. rewrite <- Hshift. apply Hlast. lia.
    + exists 0%nat. unfold throw. cbn [fst snd trace requests this attempts_trace].
      rewrite H0. repeat split; try reflexivity; try lia.
      intros _. exact Hnet.
    + exists 0%nat. unfold throw. cbn [fst snd trace requests this attempts_trace].
      rewrite H0. repeat split; try reflexivity; try lia.
  - exists 0%nat. cbn [fst snd trace requests this attempts_trace].
    rewrite H0. repeat split; try reflexivity; try lia.
Qed.

Lemma fetchJSON_stops w :
  exists n,
    (n <= retries)%nat
    /\ fst (_fetchJSON net url options timeout retries w) = nth_attempt w n
    /\ trace (snd (_fetchJSON net url options timeout retries w))
       = trace w ++ attempts_trace url 0 n
    /\ requests (snd (_fetchJSON net url options timeout retries w))
       = (requests w + S n)%nat
    /\ this (snd (_fetchJSON net url options timeout retries w)) = this w
    /\ (forall j, (j < n)%nat -> retryable (nth_attempt w j) = true)
    /\ ((n < retries)%nat -> retryable (nth_attempt w n) = false).
Proof.
  unfold _fetchJSON.
  destruct (fetch_loop_stops (S retries) 0%nat w) as (n & H); [lia|lia|].
  exists n. exact H.
Qed.
End FetchJSON.

Lemma attempts_trace_fetches url first more :
  length (List.filter is_fetch (attempts_trace url first more)) = S more.
Proof.
  revert first. induction more as [|more IH]; intros first; [reflexivity|].
  cbn [attempts_trace List.filter is_fetch length]. now rewrite IH.
Qed.

Lemma attempts_trace_delays url first more :
  delays (attempts_trace url first more) = map backoff (seq first more).
Proof.
  revert first. induction more as [|more IH]; intros first; [reflexivity|].
  cbn [attempts_trace delays seq map]. now rewrite IH.
Qed.

(** C1. A call of [_fetchJSON] makes [n + 1 <= retries + 1] attempts; its
    effects are the attempts in order, with exactly the delay
    [min(1000 * 2^i, 8000)] after failed attempt [i] and nothing before the
    first attempt.  When every attempt is a retryable failure the call makes
    exactly [retries + 1] attempts and raises the error of the last one. *)
Theorem fetchJSON_retry_schedule (net : network) (url : string)
    (options : fetch_options) (timeout : Z) (retries : nat) (w : world) :
  let r := _fetchJSON net url options timeout retries w in
  exists n,
    (n <= retries)%nat
    /\ trace (snd r) = trace w ++ attempts_trace url 0 n
    /\ length (List.filter is_fetch (attempts_trace url 0 n)) = S n
    /\ delays (attempts_trace url 0 n)
       = map (fun i => Z.min (1000 * 2 ^ Z.of_nat i) 8000) (seq 0 n)
    /\ ((forall i, (i <= retries)%nat ->
           retryable (nth_attempt net url options timeout w i) = true) ->
        n = retries
        /\ exists e, fst r = Threw e
                     /\ nth_attempt net url options timeout w retries = Threw e
                     /\ isNetworkError e = true).
Proof.
  intros r.
  destruct (fetchJSON_stops net url options timeout retries w)
    as (n & Hn & Hc & Ht & _ & _ & _ & Hlast).
  exists n. split; [exact Hn|]. split; [exact Ht|].
  split; [apply attempts_trace_fetches|].
  split; [apply attempts_trace_delays|].
  intros Hall.
  assert (n = retries) as ->.
  { destruct (Nat.eq_dec n retries) as [|Hne]; [assumption|].
    specialize (Hlast ltac:(lia)). rewrite Hall in Hlast by lia. discriminate. }
  split; [reflexivity|].
  specialize (Hall retries (Nat.le_refl _)). subst r. rewrite Hc.
  destruct (nth_attempt net url options timeout w retries) as [v|e| |];
    try discriminate.
  exists e. auto.
Qed.

(** With [retries = 2] and an endpoint that never answers in time: three
    attempts, delays of 1000 ms then 2000 ms, and the abort error. *)
Lemma fetchJSON_retry_schedule_witness :
  let net : network := fun _ _ _ => Hangs in
  let w := {| this := DataService_new; requests := 0; trace := [] |} in
  let r := _fetchJSON net "/counties" [] 8000 2 w in
  (forall i, (i <= 2)%nat ->
     retryable (nth_attempt net "/counties" [] 8000 w i) = true)
  /\ fst r = Threw AbortError
  /\ trace (snd r)
     = [Fetch "/counties"; Sleep 1000; Fetch "/counties"; Sleep 2000; Fetch "/counties"].
Proof.
  intros net w r.
  assert (Hall : forall i, (i <= 2)%nat ->
            retryable (nth_attempt net "/counties" [] 8000 w i) = true)
    by (intros; reflexivity).
  split; [exact Hall|].
  destruct (fetchJSON_retry_schedule net "/counties" [] 8000 2 w)
    as (n & _ & Ht & _ & _ & Hex).
  destruct (Hex Hall) as (-> & e & He & Hl & _).
  split.
  - fold r in He. rewrite He, <- Hl. reflexivity.
  - fold r in Ht. rewrite Ht. reflexivity.
Defined.

(** C2. If the call reaches an attempt (the earlier ones being retryable
    failures) and that attempt is answered in time with a status outside
    200-299, the call raises the error carrying that status right there: the
    effects end with that attempt, whatever the retry budget. *)
Theorem fetchJSON_http_status_terminal (net : network) (url : string)
    (options : fetch_options) (timeout : Z) (retries : nat) (w : world)
    (k : nat) (latency : Z) (res : response) :
  (k <= retries)%nat ->
  (forall i, (i < k)%nat ->
     retryable (nth_attempt net url options timeout w i) = true) ->
  net (requests w + k)%nat url options = Responds latency res ->
  latency < timeout ->
  ok res = false ->
  let r := _fetchJSON net url options timeout retries w in
  fst r = Threw (PlainError (String_of_status (status res) +:+ " " +:+ statusText res))
  /\ trace (snd r) = trace w ++ attempts_trace url 0 k
  /\ length (List.filter is_fetch (attempts_trace url 0 k)) = S k
  /\ requests (snd r) = (requests w + S k)%nat.
Proof.
  intros Hk Hbefore Hreply Hlat Hok r.
  assert (Hkth : nth_attempt net url options timeout w k
                 = Threw (PlainError (String_of_status (status res) +:+ " "
                                      +:+ statusText res))).
  { unfold nth_attempt. rewrite Hreply. cbn [attempt_result].
    destruct (Z.ltb_spec latency timeout); [|lia]. now rewrite Hok. }
  destruct (fetchJSON_stops net url options timeout retries w)
    as (n & Hn & Hc & Ht & Hr & _ & Hall & Hlast).
  assert (n = k) as ->.
  { destruct (Nat.lt_trichotomy n k) as [Hlt|[Heq|Hgt]]; [|assumption|].
    - specialize (Hlast ltac:(lia)). rewrite Hbefore in Hlast by assumption.
      discriminate.
    - specialize (Hall k Hgt). rewrite Hkth in Hall. discriminate. }
  subst r. rewrite Hc, Ht, Hr, Hkth.
  repeat split. apply attempts_trace_fetches.
Qed.

(** A 404 on the first attempt: one attempt, no delay, no retry. *)
Lemma fetchJSON_http_status_terminal_witness :
  let res := {| status := 404; statusText := "Not Found"; contentType := None;
                body_arrival := Arrives; body_text := ""; body_json := None |} in
  let net : network := fun _ _ _ => Responds 50 res in
  let w := {| this := DataService_new; requests := 0; trace := [] |} in
  let r := _fetchJSON net "/counties" [] 8000 2 w in
  fst r = Threw (PlainError "404 Not Found")
  /\ trace (snd r) = [Fetch "/counties"]
  /\ requests (snd r) = 1%nat.
Proof.
  intros res net w r.
  destruct (fetchJSON_http_status_terminal net "/counties" [] 8000 2 w 0 50 res)
    as (Hc & Ht & _ & Hr); try reflexivity; try lia.
  repeat split; assumption.
Defined.

(** ** How the service methods end *)

Lemma avoids_ret {A} s (v : A) : avoids s (ret v).
Proof. intros w. destruct s; discriminate. Qed.

Lemma avoids_throw {A} s e : avoids s (@throw A e).
Proof. intros w. destruct s; discriminate. Qed.

Lemma avoids_bind {A B} s (m : M A) (k : A -> M B) :
  avoids s m -> (forall v, avoids s (k v)) -> avoids s (bind m k).
Proof.
  intros Hm Hk w. unfold bind. specialize (Hm w).
  destruct (m w) as [[v|e| |] w']; [apply Hk| | |];
    destruct s; first [discriminate | now elim Hm].
Qed.

Lemma avoids_try_catch {A} s (m : M A) (h : js_error -> M A) :
  avoids s m -> (forall e, avoids s (h e)) -> avoids s (try_catch m h).
Proof.
  intros Hm Hh w. unfold try_catch. specialize (Hm w).
  destruct (m w) as [[v|e| |] w']; [|apply Hh| |];
    destruct s; first [discriminate | now elim Hm].
Qed.

Lemma avoids_emit s e : avoids s (emit e).
Proof. intros w. destruct s; discriminate. Qed.

Lemma avoids_get_this s : avoids s get_this.
Proof. intros w. destruct s; discriminate. Qed.

Lemma avoids_set_cache s c : avoids s (set_cache c).
Proof. intros w. destruct s; discriminate. Qed.

Lemma avoids_forEach_items {A} s (f : A -> list row -> M (list row)) :
  (forall x acc, avoids s (f x acc)) ->
  forall items acc, avoids s (forEach_items items f acc).
Proof.
  intros Hf items. induction items as [|[x|] items IH]; intros acc.
  - apply avoids_ret.
  - apply avoids_bind; [apply Hf|apply IH].
  - apply avoids_throw.
Qed.

Lemma avoids_forEach {A} s (f : A -> list row -> M (list row)) arr acc :
  (forall x acc, avoids s (f x acc)) -> avoids s (forEach arr f acc).
Proof.
  intros Hf. destruct arr; [apply avoids_throw|apply avoids_throw|].
  now apply avoids_forEach_items.
Qed.

Lemma avoids_for_of_items {A} s (f : option A -> list row -> M (list row)) :
  (forall x acc, avoids s (f x acc)) ->
  forall items acc, avoids s (for_of_items items f acc).
Proof.
  intros Hf items. induction items as [|x items IH]; intros acc.
  - apply avoids_ret.
  - apply avoids_bind; [apply Hf|apply IH].
Qed.

Lemma avoids_cache_lookup s key : avoids s (cache_lookup key).
Proof.
  intros w. unfold cache_lookup.
  destruct (cache (this w) !! key); destruct s; discriminate.
Qed.

Lemma avoids_cache_set s key value : avoids s (cache_set key value).
Proof. intros w. destruct s; discriminate. Qed.

Lemma avoids_push_constituency s countyName c acc :
  avoids s (push_constituency countyName c acc).
Proof.
  unfold push_constituency.
  destruct (constituency_wards c) as [| |ws];
    [apply avoids_ret|apply avoids_throw|].
  apply avoids_forEach_items. intros; apply avoids_ret.
Qed.

Lemma never_throws_ret {A} (v : A) : never_throws (ret v).
Proof. intros w e; discriminate. Qed.

(** A [try] whose handler never raises never raises. *)
Lemma never_throws_try_catch {A} (m : M A) (h : js_error -> M A) :
  (forall e, never_throws (h e)) -> never_throws (try_catch m h).
Proof.
  intros Hh w e. unfold try_catch.
  destruct (m w) as [[v|e'| |] w']; try discriminate. apply Hh.
Qed.

(** What neither runs out of fuel nor raises returns a value or waits for
    ever. *)
Lemma returns_or_waits {A} (m : M A) :
  halts m -> never_throws m ->
  forall w, (exists v, fst (m w) = Returned v) \/ fst (m w) = NeverSettles.
Proof.
  intros Hh Ht w. specialize (Hh w). specialize (Ht w).
  destruct (fst (m w)) as [v|e| |];
    [left; now exists v|now elim (Ht e)|now right|now elim Hh].
Qed.

Lemma returns_when_settles {A} (m : M A) :
  halts m -> never_throws m -> settles m -> returns m.
Proof.
  intros Hh Ht Hs w.
  destruct (returns_or_waits m Hh Ht w) as [H|H]; [exact H|now elim (Hs w)].
Qed.

Section ServiceTotality.
Variable net : network.

Section Avoids.
Variable s : stop.
Hypothesis stalls_excluded : s = Waiting -> no_stalled_body net.

Lemma avoids_fetchJSON url options timeout retries :
  avoids s (_fetchJSON net url options timeout retries).
Proof.
  intros w.
  destruct (fetchJSON_stops net url options timeout retries w) as (n & _ & Hc & _).
  rewrite Hc. unfold nth_attempt. destruct s.
  - apply attempt_result_fuel.
  - eapply attempt_result_settles; [now apply stalls_excluded|reflexivity].
Qed.

Lemma avoids_fetchCounties : avoids s (fetchCounties net).
Proof.
  apply avoids_try_catch; [|intros e; apply avoids_ret].
  apply avoids_bind; [apply avoids_get_this|]. intros self.
  destruct (useMockData self); [apply avoids_ret|].
  apply avoids_bind; [apply avoids_fetchJSON|]. intros data. apply avoids_ret.
Qed.

Lemma avoids_fetchAreasByCounty countyName :
  avoids s (fetchAreasByCounty net countyName).
Proof.
  apply avoids_try_catch; [|intros e; apply avoids_ret].
  apply avoids_bind; [apply avoids_get_this|]. intros self.
  destruct (useMockData self); [apply avoids_ret|].
  apply avoids_bind; [apply avoids_fetchJSON|]. intros data.
  apply avoids_bind.
  { destruct data; first [apply avoids_throw | apply avoids_ret]. }
  intros ks.
  destruct ks as [| |items]; [apply avoids_ret|apply avoids_throw|].
  apply avoids_forEach_items. intros c acc. apply avoids_push_constituency.
Qed.

Lemma avoids_add_county_areas county_ acc :
  avoids s (add_county_areas net county_ acc).
Proof.
  apply avoids_try_catch; [|intros e; apply avoids_ret].
  destruct county_ as [c|]; [|apply avoids_throw].
  apply avoids_bind; [apply avoids_fetchAreasByCounty|].
  intros areas; apply avoids_ret.
Qed.

Lemma avoids_fetchAllAreas : avoids s (fetchAllAreas net).
Proof.
  apply avoids_try_catch; [|intros e; apply avoids_ret].
  apply avoids_bind; [apply avoids_get_this|]. intros self.
  destruct (useMockData self); [apply avoids_ret|].
  apply avoids_bind; [apply avoids_cache_lookup|].
  intros [rows|]; [apply avoids_ret|].
  apply avoids_bind; [apply avoids_fetchCounties|]. intros cs.
  apply avoids_bind.
  { apply avoids_forEach. intros; apply avoids_ret. }
  intros rows. apply avoids_bind.
  { destruct cs as [| |items]; [apply avoids_throw|apply avoids_throw|].
    apply avoids_for_of_items. apply avoids_add_county_areas. }
  intros rows'. apply avoids_bind; [apply avoids_cache_set|].
  intros _. apply avoids_ret.
Qed.
End Avoids.

Lemma never_throws_fetchCounties : never_throws (fetchCounties net).
Proof. apply never_throws_try_catch. intros e. apply never_throws_ret. Qed.

Lemma never_throws_fetchAreasByCounty countyName :
  never_throws (fetchAreasByCounty net countyName).
Proof. apply never_throws_try_catch. intros e. apply never_throws_ret. Qed.

Lemma never_throws_fetchAllAreas : never_throws (fetchAllAreas net).
Proof. apply never_throws_try_catch. intros e. apply never_throws_ret. Qed.

Lemma fetchCounties_ends w :
  (exists arr, fst (fetchCounties net w) = Returned arr)
  \/ fst (fetchCounties net w) = NeverSettles.
Proof.
  apply returns_or_waits; [|apply never_throws_fetchCounties].
  apply avoids_fetchCounties. discriminate.
Qed.

Lemma fetchAreasByCounty_ends countyName w :
  (exists areas, fst (fetchAreasByCounty net countyName w) = Returned areas)
  \/ fst (fetchAreasByCounty net countyName w) = NeverSettles.
Proof.
  apply returns_or_waits; [|apply never_throws_fetchAreasByCounty].
  apply avoids_fetchAreasByCounty. discriminate.
Qed.

Lemma fetchAllAreas_ends w :
  (exists rows, fst (fetchAllAreas net w) = Returned rows)
  \/ fst (fetchAllAreas net w) = NeverSettles.
Proof.
  apply returns_or_waits; [|apply never_throws_fetchAllAreas].
  apply avoids_fetchAllAreas. discriminate.
Qed.

Hypothesis bodies_end : no_stalled_body net.

Lemma returns_fetchCounties : returns (fetchCounties net).
Proof.
  apply returns_when_settles; [|apply never_throws_fetchCounties|];
    now apply avoids_fetchCounties.
Qed.

Lemma returns_fetchAreasByCounty countyName :
  returns (fetchAreasByCounty net countyName).
Proof.
  apply returns_when_settles; [|apply never_throws_fetchAreasByCounty|];
    now apply avoids_fetchAreasByCounty.
Qed.

Lemma returns_fetchAllAreas : returns (fetchAllAreas net).
Proof.
  apply returns_when_settles; [|apply never_throws_fetchAllAreas|];
    now apply avoids_fetchAllAreas.
Qed.
End ServiceTotality.

(** ** Requests and the fields of the service *)

Lemma quiet_ret {A} (v : A) : quiet (ret v) 0.
Proof. intros w. cbn. split; [reflexivity|lia]. Qed.

Lemma quiet_throw {A} e : quiet (@throw A e) 0.
Proof. intros w. cbn. split; [reflexivity|lia]. Qed.

Lemma quiet_get_this : quiet get_this 0.
Proof. intros w. cbn. split; [reflexivity|lia]. Qed.

Lemma quiet_emit e : quiet (emit e) 0.
Proof. intros w. cbn. split; [reflexivity|lia]. Qed.

Lemma quiet_weaken {A} (m : M A) n n' : (n <= n')%nat -> quiet m n -> quiet m n'.
Proof. intros Hn Hm w. destruct (Hm w) as [H1 H2]. split; [exact H1|lia]. Qed.

Lemma quiet_bind {A B} (m : M A) (k : A -> M B) a b :
  quiet m a -> (forall v, quiet (k v) b) -> quiet (bind m k) (a + b).
Proof.
  intros Hm Hk w. unfold bind. destruct (Hm w) as [H1 H2].
  destruct (m w) as [[v|e| |] w']; cbn [snd] in *.
  - destruct (Hk v w') as [H3 H4]. split; [congruence|lia].
  - split; [exact H1|lia].
  - split; [exact H1|lia].
  - split; [exact H1|lia].
Qed.

Lemma quiet_try_catch {A} (m : M A) (h : js_error -> M A) a b :
  quiet m a -> (forall e, quiet (h e) b) -> quiet (try_catch m h) (a + b).
Proof.
  intros Hm Hh w. unfold try_catch. destruct (Hm w) as [H1 H2].
  destruct (m w) as [[v|e| |] w']; cbn [snd] in *.
  - split; [exact H1|lia].
  - destruct (Hh e w') as [H3 H4]. split; [congruence|lia].
  - split; [exact H1|lia].
  - split; [exact H1|lia].
Qed.

Lemma quiet_forEach_items {A} (f : A -> list row -> M (list row)) :
  (forall x acc, quiet (f x acc) 0) ->
  forall items acc, quiet (forEach_items items f acc) 0.
Proof.
  intros Hf items. induction items as [|[x|] items IH]; intros acc.
  - apply quiet_ret.
  - apply (quiet_bind _ _ 0 0); [apply Hf|apply IH].
  - apply quiet_throw.
Qed.

Lemma quiet_forEach {A} (f : A -> list row -> M (list row)) arr acc :
  (forall x acc, quiet (f x acc) 0) -> quiet (forEach arr f acc) 0.
Proof.
  intros Hf. destruct arr; [apply quiet_throw|apply quiet_throw|].
  now apply quiet_forEach_items.
Qed.

Lemma quiet_push_constituency countyName c acc :
  quiet (push_constituency countyName c acc) 0.
Proof.
  unfold push_constituency.
  destruct (constituency_wards c); [apply quiet_ret|apply quiet_throw|].
  apply quiet_forEach_items. intros; apply quiet_ret.
Qed.

Section ServiceRequests.
Variable net : network.

Lemma quiet_fetchJSON url options timeout retries :
  quiet (_fetchJSON net url options timeout retries) (S retries).
Proof.
  intros w.
  destruct (fetchJSON_stops net url options timeout retries w)
    as (n & Hn & _ & _ & Hr & Hs & _).
  split; [exact Hs|lia].
Qed.

Lemma quiet_fetchCounties : quiet (fetchCounties net) 3.
Proof.
  apply (quiet_try_catch _ _ 3 0); [|intros; apply quiet_ret].
  apply (quiet_bind _ _ 0 3); [apply quiet_get_this|]. intros self.
  destruct (useMockData self); [apply quiet_weaken with 0%nat; [lia|apply quiet_ret]|].
  apply (quiet_bind _ _ 3 0); [apply quiet_fetchJSON|]. intros; apply quiet_ret.
Qed.

Lemma quiet_fetchAreasByCounty countyName :
  quiet (fetchAreasByCounty net countyName) 3.
Proof.
  apply (quiet_try_catch _ _ 3 0); [|intros; apply quiet_ret].
  apply (quiet_bind _ _ 0 3); [apply quiet_get_this|]. intros self.
  destruct (useMockData self); [apply quiet_weaken with 0%nat; [lia|apply quiet_ret]|].
  apply (quiet_bind _ _ 3 0); [apply quiet_fetchJSON|]. intros data.
  apply (quiet_bind _ _ 0 0).
  { destruct data; first [apply quiet_throw|apply quiet_ret]. }
  intros [| |items]; [apply quiet_ret|apply quiet_throw|].
  apply quiet_forEach_items. intros; apply quiet_push_constituency.
Qed.

Lemma quiet_add_county_areas county_ acc :
  quiet (add_county_areas net county_ acc) 3.
Proof.
  apply (quiet_try_catch _ _ 3 0); [|intros; apply quiet_ret].
  destruct county_ as [c|]; [|apply quiet_weaken with 0%nat; [lia|apply quiet_throw]].
  apply (quiet_bind _ _ 3 0); [apply quiet_fetchAreasByCounty|].
  intros; apply quiet_ret.
Qed.

Lemma quiet_for_of_items items : forall acc,
  quiet (for_of_items items (add_county_areas net) acc) (3 * length items).
Proof.
  induction items as [|x items IH]; intros acc; [apply quiet_ret|].
  cbn [for_of_items length].
  apply quiet_weaken with (3 + 3 * length items)%nat; [lia|].
  apply quiet_bind; [apply quiet_add_county_areas|]. intros; apply IH.
Qed.
End ServiceRequests.

(** ** The area repository *)

(** The built-in dataset is large: keep it folded in what follows. *)
Opaque getComprehensiveMockData.

Lemma forEach_items_county_rows (cs : list county_entry) : forall acc w,
  forEach_items (map Some cs)
    (fun county_ allAreas => ret (allAreas ++ [county_row county_])) acc w
  = (Returned (acc ++ map county_row cs), w).
Proof.
  induction cs as [|c cs IH]; intros acc w; cbn [map forEach_items].
  - unfold ret. now rewrite app_nil_r.
  - unfold bind, ret at 1. rewrite IH. now rewrite <- app_assoc.
Qed.

Lemma items_cases {A} (items : list (option A)) :
  (exists xs, items = map Some xs) \/ In None items.
Proof.
  induction items as [|[x|] items IH]; [left; now exists []| |right; now left].
  destruct IH as [[xs ->]|Hin]; [left; now exists (x :: xs)|right; now right].
Qed.

Lemma forEach_items_county_rows_null items : forall acc w,
  In None items ->
  forEach_items items
    (fun county_ allAreas => ret (allAreas ++ [county_row county_])) acc w
  = (Threw TypeError, w).
Proof.
  induction items as [|[x|] items IH]; intros acc w Hin; [now elim Hin| |reflexivity].
  destruct Hin as [Hin|Hin]; [discriminate|].
  cbn [forEach_items]. unfold bind, ret at 1. now apply IH.
Qed.

Lemma well_formed_list (cs : list county_entry) :
  ~ malformed_list (Array (map Some cs)).
Proof.
  cbn. intros Hin. apply in_map_iff in Hin as (c & Hc & _). discriminate.
Qed.

Lemma add_county_areas_step (net : network) c acc w :
  add_county_areas net (Some c) acc w
  = match fetchAreasByCounty net (county_name c) w with
    | (Returned areas, w') => (Returned (acc ++ areas), w')
    | (Threw e, w') => (Returned acc, w')
    | (NeverSettles, w') => (NeverSettles, w')
    | (OutOfFuel, w') => (OutOfFuel, w')
    end.
Proof.
  unfold add_county_areas, try_catch, bind.
  destruct (fetchAreasByCounty net (county_name c) w) as [[areas|e| |] w'];
    reflexivity.
Qed.

(** The loop over the counties adds, county after county, what the
    county's own sub-fetch returned, unless one of them waits for ever. *)
Lemma for_of_items_contributions (net : network) (cs : list county_entry) :
  forall acc w,
    fst (for_of_items (map Some cs) (add_county_areas net) acc w)
    = Returned (acc ++ concat (county_contributions net cs w))
    \/ fst (for_of_items (map Some cs) (add_county_areas net) acc w) = NeverSettles.
Proof.
  induction cs as [|c cs IH]; intros acc w;
    cbn [map for_of_items county_contributions concat].
  - left. unfold ret. cbn [fst]. now rewrite app_nil_r.
  - unfold bind. rewrite add_county_areas_step.
    destruct (fetchAreasByCounty_ends net (county_name c) w) as [[areas Hareas]|Hwait];
      destruct (fetchAreasByCounty net (county_name c) w) as [r w'];
      cbn [fst snd] in *; subst r.
    + destruct (IH (acc ++ areas) w') as [H|H]; [left|right; exact H].
      rewrite H. now rewrite <- app_assoc.
    + right. reflexivity.
Qed.

(** A county list that is no array of entries makes the assembly raise
    before any county is asked for. *)
Lemma assembleAllAreas_malformed (net : network) (w w1 : world) arr :
  fetchCounties net w = (Returned arr, w1) ->
  malformed_list arr ->
  assembleAllAreas net w = (Threw TypeError, w1).
Proof.
  intros Hfc Hbad. unfold assembleAllAreas, bind. rewrite Hfc.
  destruct arr as [| |items]; [reflexivity|reflexivity|].
  cbn [forEach]. now rewrite forEach_items_county_rows_null.
Qed.

(** How the assembly of [fetchAllAreas] can end: it raises on a malformed
    county list, before any county sub-fetch, and leaves the service as it
    was; or it returns the assembled rows and has stored them in the cache;
    or it waits for ever for a response body. *)
Lemma assembleAllAreas_outcome (net : network) (w : world) :
  let r := assembleAllAreas net w in
  (exists e arr w1,
      fetchCounties net w = (Returned arr, w1) /\ malformed_list arr
      /\ fst r = Threw e /\ this (snd r) = this w
      /\ (requests w <= requests (snd r) <= requests w + 3)%nat)
  \/ (exists cs w1 rows,
        fetchCounties net w = (Returned (Array (map Some cs)), w1)
        /\ rows = map county_row cs ++ concat (county_contributions net cs w1)
        /\ fst r = Returned rows
        /\ cache (this (snd r)) = <["allAreas" := rows]> (cache (this w))
        /\ useMockData (this (snd r)) = useMockData (this w)
        /\ apiBase (this (snd r)) = apiBase (this w)
        /\ (requests w <= requests (snd r) <= requests w + 3 + 3 * length cs)%nat)
  \/ fst r = NeverSettles.
Proof.
  intros r. subst r.
  destruct (quiet_fetchCounties net w) as [Hthis1 Hreq1].
  destruct (fetchCounties_ends net w) as [[arr Harr]|Hwait].
  2:{ right; right. unfold assembleAllAreas, bind.
      destruct (fetchCounties net w) as [c w1]. cbn [fst] in Hwait. now subst c. }
  destruct (fetchCounties net w) as [c w1] eqn:Hfc. cbn [fst snd] in *. subst c.
  assert (Hbad : malformed_list arr ->
            exists e arr0 w0,
              (Returned arr, w1) = (Returned arr0, w0) /\ malformed_list arr0
              /\ fst (assembleAllAreas net w) = Threw e
              /\ this (snd (assembleAllAreas net w)) = this w
              /\ (requests w <= requests (snd (assembleAllAreas net w))
                  <= requests w + 3)%nat).
  { intros Hbad. exists TypeError, arr, w1.
    rewrite (assembleAllAreas_malformed net w w1 arr Hfc Hbad). cbn [fst snd].
    repeat split; try assumption; lia. }
  destruct arr as [| |items]; [left; now apply Hbad|left; now apply Hbad|].
  destruct (items_cases items) as [[cs ->]|Hnull]; [|left; now apply Hbad].
  clear Hbad.
  pose proof (for_of_items_contributions net cs ([] ++ map county_row cs) w1) as Hloop.
  destruct (quiet_for_of_items net (map Some cs) ([] ++ map county_row cs) w1)
    as [Hthis2 Hreq2].
  rewrite length_map in Hreq2.
  unfold assembleAllAreas, bind. rewrite Hfc.
  cbn [forEach for_of]. rewrite forEach_items_county_rows.
  destruct (for_of_items (map Some cs) (add_county_areas net)
              ([] ++ map county_row cs) w1) as [c w2].
  cbn [fst snd] in *. destruct Hloop as [->| ->]; [|now right; right].
  right; left.
  exists cs, w1, (map county_row cs ++ concat (county_contributions net cs w1)).
  split; [reflexivity|]. split; [reflexivity|].
  unfold cache_set, bind, get_this, set_cache, emit, ret. cbn.
  rewrite Hthis2, Hthis1. repeat split; try reflexivity; lia.
Qed.

Lemma cache_lookup_world key w :
  this (snd (cache_lookup key w)) = this w
  /\ requests (snd (cache_lookup key w)) = requests w
  /\ fst (cache_lookup key w) = Returned (cache (this w) !! key).
Proof.
  unfold cache_lookup. destruct (cache (this w) !! key); cbn; auto.
Qed.

Lemma fetchAllAreas_hit (net : network) (w : world) rows :
  useMockData (this w) = false ->
  cache (this w) !! "allAreas" = Some rows ->
  fetchAllAreas net w
  = (Returned rows,
     {| this := this w; requests := requests w;
        trace := trace w ++ [CacheHas "allAreas"; CacheGet "allAreas"] |}).
Proof.
  intros Hlive Hhit.
  unfold fetchAllAreas, try_catch, fetchAllAreas_try, bind, get_this.
  rewrite Hlive. unfold cache_lookup. rewrite Hhit.
  unfold bind, emit, ret. cbn. now rewrite <- app_assoc.
Qed.

(** In live mode with nothing cached, [fetchAllAreas] is the assembly run
    after the cache probe, with the built-in dataset on a raise. *)
Lemma fetchAllAreas_miss (net : network) (w : world) :
  useMockData (this w) = false ->
  cache (this w) !! "allAreas" = None ->
  let wp := {| this := this w; requests := requests w;
               trace := trace w ++ [CacheHas "allAreas"] |} in
  snd (cache_lookup "allAreas" w) = wp
  /\ fetchAllAreas_try net w = assembleAllAreas net wp
  /\ fetchAllAreas net w
     = match assembleAllAreas net wp with
       | (Threw e, w') => (Returned (map as_row getComprehensiveMockData), w')
       | r => r
       end.
Proof.
  intros Hlive Hmiss wp.
  unfold fetchAllAreas, try_catch, fetchAllAreas_try, bind, get_this.
  rewrite Hlive. unfold cache_lookup. rewrite Hmiss.
  unfold bind, emit, ret. cbn. fold wp.
  split; [reflexivity|]. split; [reflexivity|].
  destruct (assembleAllAreas net wp) as [[v|e| |] w']; reflexivity.
Qed.

Lemma fetchAreasByCounty_failed (net : network) (w : world) countyName e :
  useMockData (this w) = false ->
  fst (_fetchJSON net (areas_url (this w) countyName) [] 8000 2 w) = Threw e ->
  fetchAreasByCounty net countyName w
  = (Returned [], snd (_fetchJSON net (areas_url (this w) countyName) [] 8000 2 w)).
Proof.
  intros Hlive He.
  unfold fetchAreasByCounty, try_catch, fetchAreasByCounty_try, bind, get_this.
  rewrite Hlive. unfold areas_url in He |- *.
  destruct (_fetchJSON net _ [] 8000 2 w) as [c w'].
  cbn [fst] in He. now subst c.
Qed.

(** C3, as the code has it.  [fetchAllAreas] never raises: it returns a
    collection or, when a response body never ends, waits for ever; it
    returns whenever no body stalls.  An error while the county list is
    fetched is swallowed by [fetchCounties], which hands back the built-in
    counties instead.  The fallback to the built-in dataset is taken when the
    assembly itself raises, and it raises exactly when the county list handed
    back is malformed.  A county whose sub-fetch raises contributes no row,
    and the assembled collection is the county rows followed by what each
    county's own sub-fetch returned, in county-list order. *)
Theorem fetchAllAreas_never_fails (net : network) :
  (forall w e, fst (fetchAllAreas net w) <> Threw e)
  /\ (forall w, (exists rows, fst (fetchAllAreas net w) = Returned rows)
                \/ fst (fetchAllAreas net w) = NeverSettles)
  /\ (no_stalled_body net ->
      forall w, exists rows, fst (fetchAllAreas net w) = Returned rows)
  /\ (forall w e,
        useMockData (this w) = false ->
        fst (_fetchJSON net (apiBase (this w) +:+ "/counties") [] 8000 2 w) = Threw e ->
        fst (fetchCounties net w) = Returned (Array (map Some getMockCounties)))
  /\ (forall w e,
        fst (fetchAllAreas_try net w) = Threw e ->
        fst (fetchAllAreas net w) = Returned (map as_row getComprehensiveMockData)
        /\ useMockData (this w) = false
        /\ cache (this w) !! "allAreas" = None
        /\ exists arr w1,
             fetchCounties net (snd (cache_lookup "allAreas" w)) = (Returned arr, w1)
             /\ malformed_list arr)
  /\ (forall w arr w1,
        useMockData (this w) = false ->
        cache (this w) !! "allAreas" = None ->
        fetchCounties net (snd (cache_lookup "allAreas" w)) = (Returned arr, w1) ->
        malformed_list arr ->
        fst (fetchAllAreas net w) = Returned (map as_row getComprehensiveMockData))
  /\ (forall w countyName e,
        useMockData (this w) = false ->
        fst (_fetchJSON net (areas_url (this w) countyName) [] 8000 2 w) = Threw e ->
        fst (fetchAreasByCounty net countyName w) = Returned [])
  /\ (forall w cs w1,
        useMockData (this w) = false ->
        cache (this w) !! "allAreas" = None ->
        fetchCounties net (snd (cache_lookup "allAreas" w))
        = (Returned (Array (map Some cs)), w1) ->
        (fst (fetchAllAreas net w)
         = Returned (map county_row cs ++ concat (county_contributions net cs w1))
         \/ fst (fetchAllAreas net w) = NeverSettles)
        /\ (no_stalled_body net ->
            fst (fetchAllAreas net w)
            = Returned (map county_row cs ++ concat (county_contributions net cs w1)))).
Proof.
  split; [apply never_throws_fetchAllAreas|].
  split; [apply fetchAllAreas_ends|].
  split; [intros Hnet; now apply returns_fetchAllAreas|].
  split.
  { intros w e Hmode He. unfold fetchCounties, try_catch, bind, get_this.
    rewrite Hmode.
    destruct (_fetchJSON net (apiBase (this w) +:+ "/counties") [] 8000 2 w) as [c w'].
    cbn [fst] in He. now subst c. }
  split.
  { intros w e He. split.
    { unfold fetchAllAreas, try_catch.
      destruct (fetchAllAreas_try net w) as [c w']. cbn [fst] in He. now subst c. }
    destruct (useMockData (this w)) eqn:Hmode.
    { unfold fetchAllAreas_try, bind, get_this in He. rewrite Hmode in He.
      discriminate. }
    destruct (cache (this w) !! "allAreas") as [rows|] eqn:Hc.
    { unfold fetchAllAreas_try, bind, get_this, cache_lookup in He.
      rewrite Hmode, Hc in He. discriminate. }
    split; [reflexivity|]. split; [reflexivity|].
    destruct (fetchAllAreas_miss net w Hmode Hc) as (Ewp & Etry & _).
    rewrite Ewp. rewrite Etry in He.
    destruct (assembleAllAreas_outcome net
                {| this := this w; requests := requests w;
                   trace := trace w ++ [CacheHas "allAreas"] |})
      as [(e' & arr & w1 & Hfc & Hbad & _)|[(cs & w1 & rows & _ & _ & Hret & _)|Hwait]];
      [|congruence|congruence].
    now exists arr, w1. }
  split.
  { intros w arr w1 Hmode Hc Hfc Hbad.
    destruct (fetchAllAreas_miss net w Hmode Hc) as (Ewp & _ & Eall).
    rewrite Ewp in Hfc. rewrite Eall.
    now rewrite (assembleAllAreas_malformed net _ w1 arr Hfc Hbad). }
  split.
  { intros w countyName e Hmode He.
    now rewrite (fetchAreasByCounty_failed net w countyName e Hmode He). }
  intros w cs w1 Hmode Hc Hfc.
  destruct (fetchAllAreas_miss net w Hmode Hc) as (Ewp & _ & Eall).
  rewrite Ewp in Hfc.
  assert (Hrows : fst (fetchAllAreas net w)
                  = Returned (map county_row cs
                              ++ concat (county_contributions net cs w1))
                  \/ fst (fetchAllAreas net w) = NeverSettles).
  { rewrite Eall.
    destruct (assembleAllAreas_outcome net
                {| this := this w; requests := requests w;
                   trace := trace w ++ [CacheHas "allAreas"] |})
      as [(e' & arr & w1' & Hfc' & Hbad & _)
         |[(cs' & w1' & rows & Hfc' & -> & Hret & _)|Hwait]].
    - rewrite Hfc in Hfc'. injection Hfc' as <- <-.
      now elim (well_formed_list cs).
    - rewrite Hfc in Hfc'. injection Hfc' as Hcs <-.
      assert (cs' = cs) as ->.
      { clear -Hcs. revert cs' Hcs.
        induction cs as [|c cs IH]; intros [|c' cs'] H; try discriminate;
          [reflexivity|]. injection H as -> H. f_equal. now apply IH. }
      left. destruct (assembleAllAreas net _) as [[v|e| |] w']; try discriminate.
      exact Hret.
    - right. destruct (assembleAllAreas net _) as [[v|e| |] w']; try discriminate.
      reflexivity. }
  split; [exact Hrows|]. intros Hnet.
  destruct Hrows as [H|H]; [exact H|].
  destruct (returns_fetchAllAreas net Hnet w) as [rows Hr]. congruence.
Qed.

Lemma sample_network_no_stall : no_stalled_body sample_network.
Proof.
  intros n url options latency res Hreply. unfold sample_network in Hreply.
  repeat match type of Hreply with
         | (if ?b then _ else _) = _ => destruct b
         end;
    try discriminate; injection Hreply as <- <-; discriminate.
Qed.

(** The sample source: the sub-fetch for Kwale is answered with status 500
    and adds nothing, the rows of Lamu follow the two county rows; a
    malformed county list gives the built-in dataset; a source whose bodies
    stall keeps the call waiting. *)
Lemma fetchAllAreas_never_fails_witness :
  let w := world_of live_service in
  no_stalled_body sample_network
  /\ fst (_fetchJSON sample_network (areas_url (this w) (Some "Kwale")) [] 8000 2 w)
     = Threw (PlainError "500 Internal Server Error")
  /\ fst (fetchAreasByCounty sample_network (Some "Kwale") w) = Returned []
  /\ fst (fetchAllAreas sample_network w)
     = Returned
         [ mkRow (Some "Kwale") (Some "002") "county" (Some "Kwale") None;
           mkRow (Some "Lamu") (Some "005") "county" (Some "Lamu") None;
           mkRow (Some "Lamu East") (Some "005-01") "constituency" (Some "Lamu") None;
           mkRow (Some "Faza") (Some "005-01-01") "ward" (Some "Lamu")
             (Some "Lamu East") ]
  /\ (exists e, fst (fetchAllAreas_try malformed_network w) = Threw e)
  /\ fst (fetchAllAreas malformed_network w)
     = Returned (map as_row getComprehensiveMockData)
  /\ fst (fetchAllAreas stalling_network w) = NeverSettles.
Proof.
  intros w.
  destruct (fetchAllAreas_never_fails sample_network)
    as (_ & _ & _ & _ & _ & _ & Hsub & Hlive).
  assert (Hkwale : fst (_fetchJSON sample_network (areas_url (this w) (Some "Kwale"))
                          [] 8000 2 w)
                   = Threw (PlainError "500 Internal Server Error"))
    by (vm_compute; reflexivity).
  split; [exact sample_network_no_stall|].
  split; [exact Hkwale|].
  split; [exact (Hsub w (Some "Kwale") _ eq_refl Hkwale)|].
  split.
  - destruct (Hlive w [mkCounty (Some "Kwale") (Some "002");
                       mkCounty (Some "Lamu") (Some "005")]
                (snd (fetchCounties sample_network (snd (cache_lookup "allAreas" w)))))
      as [_ Hrows]; [reflexivity|reflexivity|vm_compute; reflexivity|].
    rewrite (Hrows sample_network_no_stall). vm_compute. reflexivity.
  - assert (Hthrow : fst (fetchAllAreas_try malformed_network w) = Threw TypeError)
      by (vm_compute; reflexivity).
    split; [now exists TypeError|].
    destruct (fetchAllAreas_never_fails malformed_network)
      as (_ & _ & _ & _ & Hfall & _).
    split; [exact (proj1 (Hfall w TypeError Hthrow))|].
    vm_compute. reflexivity.
Defined.

(** C3 as the specification states it fails: when the remote source cannot
    be reached every request raises, yet the result is not the built-in
    dataset.  [fetchCounties] swallows the error and hands back the five
    built-in counties, each sub-fetch fails and adds nothing, and the five
    county rows are returned and cached after 18 requests. *)
Lemma fetchAllAreas_never_fails_counterexample :
  let w := world_of live_service in
  let r := fetchAllAreas unreachable_network w in
  (forall n url options,
      attempt_result 8000 (unreachable_network n url options) = Threw TypeError)
  /\ fst (_fetchJSON unreachable_network (apiBase (this w) +:+ "/counties") [] 8000 2 w)
     = Threw TypeError
  /\ fst r = Returned (map county_row getMockCounties)
  /\ length (map county_row getMockCounties) = 5%nat
  /\ length (map as_row getComprehensiveMockData) = 1787%nat
  /\ fst r <> Returned (map as_row getComprehensiveMockData)
  /\ cache (this (snd r)) !! "allAreas" = Some (map county_row getMockCounties)
  /\ requests (snd r) = 18%nat.
Proof.
  intros w r.
  assert (Hr : fst r = Returned (map county_row getMockCounties))
    by (vm_compute; reflexivity).
  assert (Hlen : length (map as_row getComprehensiveMockData) = 1787%nat)
    by (vm_compute; reflexivity).
  split; [reflexivity|].
  split; [vm_compute; reflexivity|].
  split; [exact Hr|]. split; [reflexivity|]. split; [exact Hlen|].
  split.
  { rewrite Hr. intros H.
    apply (f_equal (fun c => match c with
                             | Returned rows => length rows
                             | _ => 0%nat
                             end)) in H.
    cbv beta iota in H. rewrite Hlen in H. discriminate. }
  split; vm_compute; reflexivity.
Qed.

(** C10. With [useMockData] set, as the constructor leaves it,
    [fetchAllAreas] returns the built-in dataset and leaves the world as it
    was: no request, no cache access, the cache unchanged, whatever the
    cache holds and whatever the remote side would answer; the same holds
    after [clearCache]. *)
Theorem fetchAllAreas_mock_mode (net : network) (w : world) :
  useMockData (this w) = true ->
  useMockData DataService_new = true
  /\ fetchAllAreas net w = (Returned (map as_row getComprehensiveMockData), w)
  /\ (forall c,
        let w' := snd (set_cache c w) in
        fetchAllAreas net w' = (Returned (map as_row getComprehensiveMockData), w'))
  /\ (let w' := snd (clearCache w) in
      fetchAllAreas net w' = (Returned (map as_row getComprehensiveMockData), w')).
Proof.
  intros Hmock.
  assert (H : forall w0, useMockData (this w0) = true ->
            fetchAllAreas net w0
            = (Returned (map as_row getComprehensiveMockData), w0)).
  { intros w0 H0. unfold fetchAllAreas, try_catch, fetchAllAreas_try, bind, get_this.
    now rewrite H0. }
  split; [reflexivity|]. split; [now apply H|].
  split; intros; apply H; exact Hmock.
Qed.

(** A freshly constructed service, before and after [clearCache], against
    the sample source. *)
Lemma fetchAllAreas_mock_mode_witness :
  let w := world_of DataService_new in
  useMockData (this w) = true
  /\ fetchAllAreas sample_network w
     = (Returned (map as_row getComprehensiveMockData), w)
  /\ fst (fetchAllAreas sample_network (snd (clearCache w)))
     = Returned (map as_row getComprehensiveMockData)
  /\ requests (snd (fetchAllAreas sample_network w)) = 0%nat
  /\ trace (snd (fetchAllAreas sample_network w)) = [].
Proof.
  intros w.
  destruct (fetchAllAreas_mock_mode sample_network w eq_refl) as (_ & H1 & _ & H2).
  split; [reflexivity|]. split; [exact H1|].
  split; [now rewrite H2|]. now rewrite H1.
Defined.

(** ** The invariants of the records the repository builds *)

Lemma yields_ret {A} (v : A) (Q : A -> Prop) : Q v -> yields (ret v) Q.
Proof. intros Hv w v' H. injection H as <-. exact Hv. Qed.

Lemma yields_throw {A} e (Q : A -> Prop) : yields (throw e) Q.
Proof. intros w v H. discriminate. Qed.

Lemma yields_bind {A B} (m : M A) (k : A -> M B) (Q : A -> Prop) (R : B -> Prop) :
  yields m Q -> (forall v, Q v -> yields (k v) R) -> yields (bind m k) R.
Proof.
  intros Hm Hk w b. unfold bind. specialize (Hm w).
  destruct (m w) as [[v|e| |] w']; cbn [fst] in *; try discriminate.
  apply (Hk v); auto.
Qed.

Lemma yields_try_catch {A} (m : M A) (h : js_error -> M A) (Q : A -> Prop) :
  yields m Q -> (forall e, yields (h e) Q) -> yields (try_catch m h) Q.
Proof.
  intros Hm Hh w v. unfold try_catch. specialize (Hm w).
  destruct (m w) as [[v'|e| |] w']; cbn [fst] in *; try discriminate.
  - apply Hm. - apply Hh.
Qed.

Lemma yields_forEach_items {A} (P : A -> Prop) (Q : list row -> Prop)
    (f : A -> list row -> M (list row)) :
  (forall x acc, P x -> Q acc -> yields (f x acc) Q) ->
  forall items acc,
    Forall (fun o => match o with Some x => P x | None => True end) items ->
    Q acc -> yields (forEach_items items f acc) Q.
Proof.
  intros Hf items. induction items as [|[x|] items IH]; intros acc Hitems Hacc.
  - now apply yields_ret.
  - inversion Hitems as [|? ? Hx Hrest]; subst.
    apply yields_bind with (Q := Q); [now apply Hf|].
    intros acc' Hacc'. now apply IH.
  - apply yields_throw.
Qed.


Lemma yields_for_of_items {A} (Q : list row -> Prop)
    (f : option A -> list row -> M (list row)) :
  (forall x acc, Q acc -> yields (f x acc) Q) ->
  forall items acc, Q acc -> yields (for_of_items items f acc) Q.
Proof.
  intros Hf items. induction items as [|x items IH]; intros acc Hacc.
  - now apply yields_ret.
  - apply yields_bind with (Q := Q); [now apply Hf|].
    intros acc' Hacc'. now apply IH.
Qed.


Section RepositoryInvariant.
Variable net : network.











End RepositoryInvariant.







(** ** Filtering *)

Lemma truthy_true s : truthy s = true <-> s <> "".
Proof. destruct s; cbn; split; congruence. Qed.

Lemma toLowerCase_empty s : toLowerCase s = "" <-> s = "".
Proof. destruct s; cbn; split; congruence. Qed.

Lemma includes_empty_field sub : includes "" sub = true <-> sub = "".
Proof. destruct sub; cbn; split; congruence. Qed.

Lemma matchesSearch_spec term r :
  matchesSearch (toLowerCase term) r = true
  <-> (term <> "" -> search_matches term r).
Proof.
  unfold matchesSearch, search_matches, ci_includes.
  destruct (truthy (toLowerCase term)) eqn:Hactive; cbn [negb orb].
  - apply truthy_true in Hactive.
    assert (Hterm : term <> "") by (now rewrite <- toLowerCase_empty).
    rewrite orb_true_iff. split.
    + intros [Hname|Hcounty] _; [now left|right].
      destruct (county r) as [c|]; [|discriminate].
      apply andb_true_iff in Hcounty as [_ Hc]. now exists c.
    + intros H. destruct (H Hterm) as [Hname|(c & Hc & Hin)]; [now left|right].
      rewrite Hc. apply andb_true_iff. split; [|exact Hin].
      apply truthy_true. intros ->. cbn in Hin.
      now apply includes_empty_field in Hin.
  - assert (term = "") as ->.
    { apply toLowerCase_empty. destruct (toLowerCase term); [reflexivity|discriminate]. }
    split; [intros _ H; now elim H|reflexivity].
Qed.

Lemma matchesCounty_spec sel r :
  matchesCounty sel r = true <-> (sel <> "" -> county r = Some sel).
Proof.
  unfold matchesCounty. destruct sel as [|a sel]; cbn [truthy negb orb].
  - split; [intros _ H; now elim H|reflexivity].
  - rewrite bool_decide_eq_true. split; [auto|intros H; now apply H].
Qed.

Lemma matchesType_spec sel r :
  matchesType sel r = true <-> (sel <> "" -> type r = sel).
Proof.
  unfold matchesType. destruct sel as [|a sel]; cbn [truthy negb orb].
  - split; [intros _ H; now elim H|reflexivity].
  - rewrite String.eqb_eq. split; [auto|intros H; now apply H].
Qed.

Lemma filter_all {A} (keep : A -> bool) (l : list A) :
  (forall x, keep x = true) -> List.filter keep l = l.
Proof.
  intros H. induction l as [|x l IH]; [reflexivity|].
  cbn [List.filter]. now rewrite H, IH.
Qed.

(** C6. The filter of [applyFilters] is a stable filter by the criteria: it
    keeps exactly the records that every active criterion matches, in their
    original order and multiplicity; with no active criterion it returns
    the whole collection. *)
Theorem filter_step_criteria (c : controls) (R : list area) :
  (exists keep : area -> bool,
      (forall r, keep r = true <-> criteria_match c r)
      /\ filter_step c R = List.filter keep R)
  /\ (forall r, In r (filter_step c R) <-> In r R /\ criteria_match c r)
  /\ (search_input c = "" -> filter_county c = "" -> filter_type c = "" ->
      filter_step c R = R).
Proof.
  set (keep := fun item =>
         matchesSearch (toLowerCase (search_input c)) item
         && matchesCounty (filter_county c) item
         && matchesType (filter_type c) item).
  assert (Hkeep : forall r, keep r = true <-> criteria_match c r).
  { intros r. unfold keep, criteria_match.
    rewrite !andb_true_iff, matchesSearch_spec, matchesCounty_spec, matchesType_spec.
    tauto. }
  split; [exists keep; split; [exact Hkeep|reflexivity]|].
  split.
  - intros r. change (filter_step c R) with (List.filter keep R).
    rewrite filter_In, Hkeep. tauto.
  - intros Hs Hc Ht. change (filter_step c R) with (List.filter keep R).
    apply filter_all. intros r. apply Hkeep. unfold criteria_match.
    rewrite Hs, Hc, Ht. repeat split; intros H; now elim H.
Qed.

(** No active criterion: everything, in order; searching "park" in the
    scenario keeps Parklands only. *)
Lemma filter_step_criteria_witness :
  filter_step (mkControls "" "" "" "name") scenario_records = scenario_records
  /\ filter_step (mkControls "park" "" "" "name") scenario_records
     = [ mkArea "Parklands" None "ward" (Some "Nairobi") (Some "Westlands") ].
Proof.
  split; [|reflexivity].
  destruct (filter_step_criteria (mkControls "" "" "" "name") scenario_records)
    as (_ & _ & Hall).
  apply Hall; reflexivity.
Defined.

(** ** Sorting *)

Section SortFacts.
Context {A : Type}.
Variable compare : A -> A -> Z.

(** A consistent comparator: swapping the arguments swaps the sign, and
    "not greater" is transitive. *)
Hypothesis compare_flip : forall a b, compare a b < 0 <-> 0 < compare b a.
Hypothesis compare_trans :
  forall a b c, compare a b <= 0 -> compare b c <= 0 -> compare a c <= 0.

Lemma insert_sorted_perm x l : Permutation (insert_sorted compare x l) (x :: l).
Proof.
  induction l as [|y l IH]; cbn [insert_sorted]; [reflexivity|].
  destruct (compare x y <=? 0); [reflexivity|].
  rewrite IH. apply perm_swap.
Qed.

Lemma js_sort_perm l : Permutation (js_sort compare l) l.
Proof.
  induction l as [|x l IH]; cbn [js_sort]; [reflexivity|].
  rewrite insert_sorted_perm. now constructor.
Qed.

Lemma insert_sorted_sorted x l :
  StronglySorted (fun a b => compare a b <= 0) l ->
  StronglySorted (fun a b => compare a b <= 0) (insert_sorted compare x l).
Proof.
  induction 1 as [|y l Hl IH Hy]; cbn [insert_sorted].
  - repeat constructor.
  - destruct (Z.leb_spec (compare x y) 0) as [Hle|Hgt].
    + constructor; [now constructor|].
      constructor; [exact Hle|].
      eapply Forall_impl; [exact Hy|]. intros z Hz. cbn in Hz.
      now apply compare_trans with y.
    + constructor; [exact IH|].
      eapply Permutation_Forall; [symmetry; apply insert_sorted_perm|].
      constructor; [|exact Hy].
      apply compare_flip in Hgt. lia.
Qed.

Lemma js_sort_sorted l :
  StronglySorted (fun a b => compare a b <= 0) (js_sort compare l).
Proof.
  induction l as [|x l IH]; cbn [js_sort]; [constructor|].
  now apply insert_sorted_sorted.
Qed.

(** Without ties the order is strict. *)
Lemma sorted_strict l :
  List.NoDup l ->
  (forall a b, In a l -> In b l -> compare a b = 0 -> a = b) ->
  StronglySorted (fun a b => compare a b <= 0) l ->
  StronglySorted (fun a b => compare a b < 0) l.
Proof.
  intros Hnd Hsep Hs. induction Hs as [|x l Hl IH Hx]; [constructor|].
  apply NoDup_cons_iff in Hnd as [Hx_notin Hnd].
  constructor.
  - apply IH; [exact Hnd|]. intros a b Ha Hb. apply Hsep; now right.
  - apply Forall_forall. intros y Hy. rewrite Forall_forall in Hx.
    specialize (Hx y Hy). cbn in Hx. apply list_elem_of_In in Hy.
    destruct (Z.eq_dec (compare x y) 0) as [E|]; [|lia].
    apply Hsep in E; [|now left|now right]. subst y. contradiction.
Qed.
End SortFacts.

(** A list sorted strictly by an asymmetric order is determined by its
    elements. *)
Lemma strictly_sorted_unique {A} (lt : A -> A -> Prop) :
  (forall a b, lt a b -> lt b a -> False) ->
  forall l1 l2,
    StronglySorted lt l1 -> StronglySorted lt l2 -> Permutation l1 l2 -> l1 = l2.
Proof.
  intros Hasym l1. induction l1 as [|x l1 IH]; intros l2 H1 H2 Hp.
  - apply Permutation_nil in Hp. now subst.
  - destruct l2 as [|y l2]; [now apply Permutation_sym, Permutation_nil in Hp|].
    apply StronglySorted_inv in H1 as [H1 Hx].
    apply StronglySorted_inv in H2 as [H2 Hy].
    assert (x = y) as ->.
    { assert (Hxin : In x (y :: l2))
        by (eapply Permutation_in; [exact Hp|now left]).
      assert (Hyin : In y (x :: l1))
        by (eapply Permutation_in; [symmetry; exact Hp|now left]).
      destruct Hxin as [->|Hxin]; [reflexivity|].
      destruct Hyin as [->|Hyin]; [reflexivity|].
      rewrite Forall_forall in Hx, Hy.
      apply list_elem_of_In in Hxin, Hyin.
      elim (Hasym x y); [now apply Hx|now apply Hy]. }
    f_equal. apply IH; [exact H1|exact H2|].
    now apply Permutation_cons_inv with y.
Qed.

Lemma strongly_sorted_rev {A} (lt : A -> A -> Prop) l :
  StronglySorted lt l -> StronglySorted (fun a b => lt b a) (rev l).
Proof.
  induction 1 as [|x l Hl IH Hx]; cbn [rev]; [constructor|].
  clear Hl. revert IH. generalize (Forall_rev Hx). clear Hx.
  generalize (rev l) as r. intros r Hr Hs.
  induction Hs as [|y r Hr' IH Hy]; cbn [app].
  - repeat constructor.
  - apply Forall_cons_iff in Hr as [Hyx Hr].
    constructor; [now apply IH|].
    apply Forall_app. split; [exact Hy|now repeat constructor].
Qed.

Lemma NoDup_map_injective {A B} (f : A -> B) l a b :
  List.NoDup (map f l) -> In a l -> In b l -> f a = f b -> a = b.
Proof.
  induction l as [|x l IH]; cbn [map]; intros Hnd Ha Hb E; [now elim Ha|].
  apply NoDup_cons_iff in Hnd as [Hx Hnd].
  destruct Ha as [->|Ha], Hb as [->|Hb]; auto.
  - elim Hx. rewrite E. now apply in_map.
  - elim Hx. rewrite <- E. now apply in_map.
Qed.

Lemma NoDup_of_map {A B} (f : A -> B) l : List.NoDup (map f l) -> List.NoDup l.
Proof.
  induction l as [|x l IH]; cbn [map]; intros Hnd; [constructor|].
  apply NoDup_cons_iff in Hnd as [Hx Hnd].
  apply NoDup_cons_iff. split; [|now apply IH].
  intros Hin. apply Hx. now apply in_map.
Qed.

Section SortData.
Variable localeCompare : string -> string -> Z.

(** The heap after [sortData]: a new array holds the result, every other
    array is as before. *)
Lemma sortData_heap (h : gmap loc (list area)) (data : loc) (R : list area)
    (sortBy : string) :
  h !! data = Some R ->
  exists sorted h',
    sortData localeCompare data sortBy h = Some (sorted, h')
    /\ h !! sorted = None
    /\ sorted <> data
    /\ h' !! sorted = Some (sort_switch localeCompare sortBy R)
    /\ (forall l, l <> sorted -> h' !! l = h !! l).
Proof.
  intros Hdata. unfold sortData. rewrite Hdata.
  set (sorted := fresh (dom h)).
  assert (Hfresh : h !! sorted = None)
    by (apply not_elem_of_dom, is_fresh).
  exists sorted, (alter (sort_switch localeCompare sortBy) sorted (<[sorted := R]> h)).
  split; [reflexivity|]. split; [exact Hfresh|].
  split; [congruence|]. split.
  - rewrite lookup_alter_eq, lookup_insert_eq. reflexivity.
  - intros l Hl. rewrite lookup_alter_ne, lookup_insert_ne; auto.
Qed.

Hypothesis localeCompare_flip :
  forall a b, localeCompare a b < 0 <-> 0 < localeCompare b a.
Hypothesis localeCompare_trans :
  forall a b c, localeCompare a b <= 0 -> localeCompare b c <= 0 ->
                localeCompare a c <= 0.

Lemma sort_switch_name_reverse (R : list area) :
  List.NoDup (map name R) ->
  (forall a b, In a (map name R) -> In b (map name R) ->
               localeCompare a b = 0 -> a = b) ->
  rev (sort_switch localeCompare "name" R) = sort_switch localeCompare "name-desc" R.
Proof.
  intros Hnd Hsep.
  change (sort_switch localeCompare "name" R)
    with (js_sort (compare_name localeCompare) R).
  change (sort_switch localeCompare "name-desc" R)
    with (js_sort (compare_name_desc localeCompare) R).
  pose proof (NoDup_of_map name R Hnd) as HndR.
  assert (Hrec : forall a b, In a R -> In b R ->
            localeCompare (name a) (name b) = 0 -> a = b).
  { intros a b Ha Hb E. apply (NoDup_map_injective name R); auto.
    apply Hsep; auto using in_map. }
  apply (strictly_sorted_unique (fun a b => compare_name_desc localeCompare a b < 0)).
  - unfold compare_name_desc. intros a b H1 H2.
    apply localeCompare_flip in H1. lia.
  - apply (strongly_sorted_rev (fun a b => compare_name localeCompare a b < 0)).
    apply sorted_strict.
    + eapply Permutation_NoDup; [symmetry; apply js_sort_perm|exact HndR].
    + intros a b Ha Hb. apply Hrec;
        (eapply Permutation_in; [apply js_sort_perm|eassumption]).
    + apply js_sort_sorted; unfold compare_name; intros;
        [apply localeCompare_flip|eapply localeCompare_trans]; eassumption.
  - apply sorted_strict.
    + eapply Permutation_NoDup; [symmetry; apply js_sort_perm|exact HndR].
    + intros a b Ha Hb E. symmetry. apply Hrec; [| |exact E];
        (eapply Permutation_in; [apply js_sort_perm|eassumption]).
    + apply js_sort_sorted; unfold compare_name_desc; intros;
        [apply localeCompare_flip|eapply localeCompare_trans]; eassumption.
  - rewrite <- Permutation_rev. rewrite !js_sort_perm. reflexivity.
Qed.
End SortData.

(** C7, as the code has it.  For a collation that is a consistent
    comparator, and records whose names are pairwise distinct and told apart
    by it (it returns 0 on no two different names), the array returned by
    [sortData(R, "name")], reversed, is element for element the array
    returned by [sortData(R, "name-desc")]. *)
Theorem sortData_name_desc_reverse (localeCompare : string -> string -> Z)
    (h : gmap loc (list area)) (data : loc) (R : list area) :
  (forall a b, localeCompare a b < 0 <-> 0 < localeCompare b a) ->
  (forall a b c, localeCompare a b <= 0 -> localeCompare b c <= 0 ->
                 localeCompare a c <= 0) ->
  h !! data = Some R ->
  List.NoDup (map name R) ->
  (forall a b, In a (map name R) -> In b (map name R) ->
               localeCompare a b = 0 -> a = b) ->
  exists asc h1 l1 desc h2 l2,
    sortData localeCompare data "name" h = Some (asc, h1)
    /\ h1 !! asc = Some l1
    /\ sortData localeCompare data "name-desc" h = Some (desc, h2)
    /\ h2 !! desc = Some l2
    /\ rev l1 = l2.
Proof.
  intros Hflip Htrans Hdata Hnd Hsep.
  destruct (sortData_heap localeCompare h data R "name" Hdata)
    as (asc & h1 & E1 & _ & _ & L1 & _).
  destruct (sortData_heap localeCompare h data R "name-desc" Hdata)
    as (desc & h2 & E2 & _ & _ & L2 & _).
  exists asc, h1, (sort_switch localeCompare "name" R),
         desc, h2, (sort_switch localeCompare "name-desc" R).
  repeat split; try assumption.
  now apply sort_switch_name_reverse.
Qed.

(** C8. [sortData] returns a new array and leaves its input as it was: the
    returned location was not allocated before, it differs from the input's,
    the input array holds the same elements after the call, and so does
    every other array; this for every sort key and every collation. *)
Theorem sortData_input_unchanged (localeCompare : string -> string -> Z)
    (h : gmap loc (list area)) (data : loc) (R : list area) (sortBy : string) :
  h !! data = Some R ->
  exists sorted h',
    sortData localeCompare data sortBy h = Some (sorted, h')
    /\ h !! sorted = None
    /\ sorted <> data
    /\ h' !! data = Some R
    /\ (forall l, l <> sorted -> h' !! l = h !! l)
    /\ h' !! sorted = Some (sort_switch localeCompare sortBy R).
Proof.
  intros Hdata.
  destruct (sortData_heap localeCompare h data R sortBy Hdata)
    as (sorted & h' & E & Hnew & Hne & Hres & Hframe).
  exists sorted, h'. repeat split; try assumption.
  rewrite Hframe; [exact Hdata|congruence].
Qed.

Lemma lexCompare_flip a b : lexCompare a b < 0 <-> 0 < lexCompare b a.
Proof.
  unfold lexCompare. rewrite (String.compare_antisym a b).
  destruct (String.compare b a); cbn; lia.
Qed.

Lemma string_compare_le_trans a : forall b c,
  String.compare a b <> Gt -> String.compare b c <> Gt -> String.compare a c <> Gt.
Proof.
  induction a as [|x a IH]; intros [|y b] [|z c]; cbn; try congruence.
  unfold Ascii.compare.
  destruct (N.compare_spec (N_of_ascii x) (N_of_ascii y)),
           (N.compare_spec (N_of_ascii y) (N_of_ascii z)),
           (N.compare_spec (N_of_ascii x) (N_of_ascii z));
    try congruence; try (exfalso; lia).
  apply IH.
Qed.

Lemma lexCompare_trans a b c :
  lexCompare a b <= 0 -> lexCompare b c <= 0 -> lexCompare a c <= 0.
Proof.
  unfold lexCompare. intros Hab Hbc.
  pose proof (string_compare_le_trans a b c) as H.
  destruct (String.compare a b), (String.compare b c), (String.compare a c);
    try lia; exfalso; apply H; congruence.
Qed.

Lemma lexCompare_separates a b : lexCompare a b = 0 -> a = b.
Proof.
  unfold lexCompare. intros H. apply String.compare_eq_iff.
  destruct (String.compare a b); [reflexivity|lia|lia].
Qed.

(** The records of the test-suite under the code-unit order. *)
Lemma sortData_name_desc_reverse_witness :
  sort_heap !! 0%nat = Some sort_records
  /\ exists asc h1 l1 desc h2 l2,
       sortData lexCompare 0%nat "name" sort_heap = Some (asc, h1)
       /\ h1 !! asc = Some l1
       /\ sortData lexCompare 0%nat "name-desc" sort_heap = Some (desc, h2)
       /\ h2 !! desc = Some l2
       /\ rev l1 = l2
       /\ map name l1 = ["Alpha"; "Bravo"; "Charlie"].
Proof.
  split; [reflexivity|].
  destruct (sortData_name_desc_reverse lexCompare sort_heap 0%nat sort_records)
    as (asc & h1 & l1 & desc & h2 & l2 & E1 & L1 & E2 & L2 & Hrev).
  - apply lexCompare_flip.
  - apply lexCompare_trans.
  - reflexivity.
  - cbn. repeat constructor; cbn; intuition discriminate.
  - intros a b _ _. apply lexCompare_separates.
  - exists asc, h1, l1, desc, h2, l2. repeat split; try assumption.
    vm_compute in E1. injection E1 as <- <-.
    vm_compute in L1. injection L1 as <-. reflexivity.
Defined.

(** C7 as the specification states it fails: names that are pairwise
    distinct need not be told apart by the collation.  The two spellings of
    one name are different strings, a collation that returns 0 on canonically
    equivalent strings ties them, the stable sort keeps tied records in their
    input order under both keys, and so both sorts return the records as they
    were given: the reversed ascending result is not the descending one. *)
Lemma sortData_name_desc_reverse_counterexample :
  let r1 := mkArea cafe_composed None "ward" None None in
  let r2 := mkArea cafe_decomposed None "ward" None None in
  let h : gmap loc (list area) := {[ 0%nat := [r1; r2] ]} in
  (forall a b, canonCompare a b < 0 <-> 0 < canonCompare b a)
  /\ (forall a b c, canonCompare a b <= 0 -> canonCompare b c <= 0 ->
                    canonCompare a c <= 0)
  /\ List.NoDup (map name [r1; r2])
  /\ canonCompare cafe_composed cafe_decomposed = 0
  /\ exists asc h1 desc h2,
       sortData canonCompare 0%nat "name" h = Some (asc, h1)
       /\ h1 !! asc = Some [r1; r2]
       /\ sortData canonCompare 0%nat "name-desc" h = Some (desc, h2)
       /\ h2 !! desc = Some [r1; r2]
       /\ rev [r1; r2] <> [r1; r2].
Proof.
  intros r1 r2 h.
  split; [intros a b; apply lexCompare_flip|].
  split; [intros a b c; apply lexCompare_trans|].
  split; [repeat constructor; cbn; intuition discriminate|].
  split; [reflexivity|].
  destruct (sortData_heap canonCompare h 0%nat [r1; r2] "name" eq_refl)
    as (asc & h1 & E1 & _ & _ & L1 & _).
  destruct (sortData_heap canonCompare h 0%nat [r1; r2] "name-desc" eq_refl)
    as (desc & h2 & E2 & _ & _ & L2 & _).
  exists asc, h1, desc, h2.
  split; [exact E1|]. split; [exact L1|]. split; [exact E2|]. split; [exact L2|].
  discriminate.
Qed.

(** Sorting the test records by name: the input array is untouched. *)
Lemma sortData_input_unchanged_witness :
  sort_heap !! 0%nat = Some sort_records
  /\ exists sorted h',
       sortData lexCompare 0%nat "name" sort_heap = Some (sorted, h')
       /\ sorted <> 0%nat
       /\ h' !! 0%nat = Some sort_records
       /\ (map name <$> h' !! sorted) = Some ["Alpha"; "Bravo"; "Charlie"].
Proof.
  split; [reflexivity|].
  destruct (sortData_input_unchanged lexCompare sort_heap 0%nat sort_records "name")
    as (sorted & h' & E & _ & Hne & Hin & _ & Hout); [reflexivity|].
  exists sorted, h'. repeat split; try assumption.
  rewrite Hout. reflexivity.
Defined.

(** ** Debounce *)

Section DebounceFacts.
Context {Args : Type}.
Variable wait : Z.
Hypothesis wait_nonneg : 0 <= wait.

Local Abbreviation pending := (@pending Args wait).

Lemma trigger_idle rt c t args :
  idle rt c -> pending (trigger wait rt (t, args)) t args c.
Proof.
  intros [Hq Hc]. destruct rt as [q n tm cs]. cbn in Hq, Hc. subst q cs.
  exists n. unfold trigger, advance, executedFunction, setTimeout. cbn.
  rewrite Z.max_r by exact wait_nonneg.
  destruct tm; cbn; auto.
Qed.

Lemma trigger_pending_within rt c t0 a0 t1 a1 :
  pending rt t0 a0 c -> t1 - t0 < wait ->
  pending (trigger wait rt (t1, a1)) t1 a1 c.
Proof.
  intros (id & Hq & Htm & Hc) Hlt. destruct rt as [q n tm cs].
  cbn in Hq, Htm, Hc. subst q tm cs.
  exists n. unfold trigger, advance, executedFunction, setTimeout. cbn.
  destruct (Z.leb_spec (t0 + wait) t1) as [|_]; [lia|]. cbn.
  rewrite Nat.eqb_refl. cbn.
  rewrite Z.max_r by exact wait_nonneg. auto.
Qed.

Lemma trigger_pending_after rt c t0 a0 t1 a1 :
  pending rt t0 a0 c -> wait <= t1 - t0 ->
  pending (trigger wait rt (t1, a1)) t1 a1 (c ++ [(t0 + wait, a0)]).
Proof.
  intros (id & Hq & Htm & Hc) Hge. destruct rt as [q n tm cs].
  cbn in Hq, Htm, Hc. subst q tm cs.
  exists n. unfold trigger, advance, executedFunction, setTimeout. cbn.
  destruct (Z.leb_spec (t0 + wait) t1) as [_|]; [|lia]. cbn.
  rewrite Nat.eqb_refl. cbn.
  rewrite Z.max_r by exact wait_nonneg. auto.
Qed.

Lemma drain_pending rt c t args :
  pending rt t args c -> calls (advance None rt) = c ++ [(t + wait, args)].
Proof.
  intros (id & Hq & Htm & Hc). destruct rt as [q n tm cs].
  cbn in Hq, Htm, Hc. subst q tm cs.
  unfold advance. cbn. reflexivity.
Qed.

Lemma last_cons_default {A} (l : list A) : forall x d,
  List.last (x :: l) d = List.last l x.
Proof.
  induction l as [|y l IH]; intros x d; [reflexivity|].
  change (List.last (x :: y :: l) d) with (List.last (y :: l) d).
  rewrite (IH y d), (IH y x). reflexivity.
Qed.

Lemma bursts_head tr (ts : list (Z * Args)) :
  exists b bs, bursts wait (tr :: ts) = (tr :: b) :: bs.
Proof.
  destruct ts as [|next ts]; [now exists [], []|].
  cbn [bursts].
  destruct (match ts with [] => _ | _ => _ end) as [|b bs];
    [now exists [], []|].
  destruct (fst next - fst tr <? wait); [now exists b, bs|now exists [], (b :: bs)].
Qed.

Lemma bursts_step tr next (ts : list (Z * Args)) :
  exists b bs,
    bursts wait (next :: ts) = (next :: b) :: bs
    /\ bursts wait (tr :: next :: ts)
       = if fst next - fst tr <? wait then (tr :: next :: b) :: bs
         else [tr] :: (next :: b) :: bs.
Proof.
  destruct (bursts_head next ts) as (b & bs & E).
  exists b, bs. split; [exact E|].
  change (bursts wait (tr :: next :: ts))
    with (match bursts wait (next :: ts) with
          | b :: bs =>
              if fst next - fst tr <? wait then (tr :: b) :: bs else [tr] :: b :: bs
          | [] => [[tr]]
          end).
  now rewrite E.
Qed.

Lemma debounce_from_pending (ts : list (Z * Args)) : forall rt t0 a0 c,
  pending rt t0 a0 c ->
  calls (advance None (fold_left (trigger wait) ts rt))
  = c ++ flat_map (burst_call wait) (bursts wait ((t0, a0) :: ts)).
Proof.
  induction ts as [|[t1 a1] ts IH]; intros rt t0 a0 c Hp.
  - cbn. now apply drain_pending.
  - cbn [fold_left].
    destruct (bursts_step (t0, a0) (t1, a1) ts) as (b & bs & E1 & E0).
    rewrite E0. cbn [fst].
    destruct (Z.ltb_spec (t1 - t0) wait) as [Hlt|Hge].
    + rewrite (IH _ t1 a1 c) by (now apply trigger_pending_within with t0 a0).
      rewrite E1. cbn [flat_map burst_call].
      now rewrite (last_cons_default b (t1, a1) (t0, a0)).
    + rewrite (IH _ t1 a1 (c ++ [(t0 + wait, a0)]))
        by (now apply trigger_pending_after).
      rewrite E1. cbn [flat_map burst_call List.last app].
      now rewrite <- app_assoc.
Qed.

Lemma debounce_bursts (ts : list (Z * Args)) :
  debounced_calls wait ts = flat_map (burst_call wait) (bursts wait ts).
Proof.
  unfold debounced_calls, debounce. destruct ts as [|[t a] ts]; [reflexivity|].
  cbn [fold_left].
  rewrite (debounce_from_pending ts _ t a []); [reflexivity|].
  apply trigger_idle. now split.
Qed.

Lemma burst_call_length (bs : list (list (Z * Args))) :
  Forall (fun b => b <> []) bs ->
  length (flat_map (burst_call wait) bs) = length bs.
Proof.
  induction 1 as [|b bs Hb _ IH]; [reflexivity|].
  cbn [flat_map]. rewrite length_app, IH.
  destruct b as [|tr b]; [now elim Hb|].
  cbn [burst_call]. now destruct (List.last b tr).
Qed.

(** [bursts] cuts the sequence into its maximal bursts. *)
Lemma bursts_partition (ts : list (Z * Args)) :
  concat (bursts wait ts) = ts
  /\ Forall (fun b => b <> []) (bursts wait ts)
  /\ Forall (close_run wait) (bursts wait ts)
  /\ separated wait (bursts wait ts).
Proof.
  induction ts as [|tr ts IH]; [cbn; auto|].
  destruct ts as [|next ts].
  { cbn. repeat split; repeat constructor; congruence. }
  destruct IH as (Hcat & Hne & Hclose & Hsep).
  destruct (bursts_step tr next ts) as (b & bs & E1 & E0).
  rewrite E0. rewrite E1 in *.
  apply Forall_cons_iff in Hne as [_ Hne].
  apply Forall_cons_iff in Hclose as [Hb Hclose].
  destruct (Z.ltb_spec (fst next - fst tr) wait) as [Hlt|Hge].
  - split; [cbn [concat app] in *; now rewrite Hcat|].
    split; [constructor; [congruence|exact Hne]|].
    split; [constructor; [now split|exact Hclose]|].
    destruct bs as [|[|x b2] bs]; try exact I.
    cbn [separated] in *. now rewrite last_cons_default.
  - split; [cbn [concat app] in *; now rewrite Hcat|].
    split; [repeat constructor; [congruence|congruence|exact Hne]|].
    split; [repeat constructor; assumption|].
    cbn [separated List.last]. split; [exact Hge|exact Hsep].
Qed.
End DebounceFacts.

(** C9. For a wait [w >= 0] the debounced function calls its target once
    per maximal burst of triggers, [w] after the burst's last trigger and
    with that trigger's arguments; the bursts cut the trigger sequence into
    runs in which each trigger comes less than [w] after the one before,
    consecutive runs being at least [w] apart.  (A timer due at the very
    time of a trigger has fired before it.) *)
Theorem debounce_once_per_burst {Args : Type} (wait : Z)
    (triggers : list (Z * Args)) :
  0 <= wait ->
  debounced_calls wait triggers = flat_map (burst_call wait) (bursts wait triggers)
  /\ length (debounced_calls wait triggers) = length (bursts wait triggers)
  /\ concat (bursts wait triggers) = triggers
  /\ Forall (fun b => b <> []) (bursts wait triggers)
  /\ Forall (close_run wait) (bursts wait triggers)
  /\ separated wait (bursts wait triggers).
Proof.
  intros Hw.
  destruct (bursts_partition wait triggers) as (Hcat & Hne & Hclose & Hsep).
  rewrite (debounce_bursts wait Hw).
  split; [reflexivity|].
  split; [now apply burst_call_length|].
  auto.
Qed.

(** A wait of 300 ms and triggers at 0, 100 and 150: one burst, one call,
    at 450. *)
Lemma debounce_once_per_burst_witness :
  0 <= 300
  /\ bursts 300 [(0, "a"); (100, "b"); (150, "c")]
     = [[(0, "a"); (100, "b"); (150, "c")]]
  /\ debounced_calls 300 [(0, "a"); (100, "b"); (150, "c")] = [(450, "c")].
Proof.
  assert (Hw : 0 <= 300) by lia.
  split; [exact Hw|]. split; [reflexivity|].
  destruct (debounce_once_per_burst 300 [(0, "a"); (100, "b"); (150, "c")] Hw)
    as (Hcalls & _).
  rewrite Hcalls. reflexivity.
Defined.

(** * Further properties of the code *)

(** ** Unique counties *)

Lemma Set_add_In x s y : In y (Set_add x s) <-> y = x \/ In y s.
Proof.
  induction s as [|z s IH]; cbn [Set_add In]; [intuition|].
  destruct (String.eqb_spec x z) as [->|Hne]; cbn [In]; [intuition|].
  rewrite IH. intuition.
Qed.

Lemma Set_add_NoDup x s : List.NoDup s -> List.NoDup (Set_add x s).
Proof.
  induction s as [|z s IH]; cbn [Set_add]; intros Hnd.
  - repeat constructor. intros [].
  - destruct (String.eqb_spec x z) as [->|Hne]; [exact Hnd|].
    apply NoDup_cons_iff in Hnd as [Hz Hnd].
    apply NoDup_cons_iff. split; [|now apply IH].
    rewrite Set_add_In. intros [->|Hin]; [now elim Hne|contradiction].
Qed.

Lemma Set_from_spec values :
  List.NoDup (Set_from values)
  /\ forall y, In y (Set_from values) <-> In y values.
Proof.
  unfold Set_from.
  assert (H : forall s, List.NoDup s ->
            List.NoDup (fold_left (fun s x => Set_add x s) values s)
            /\ forall y, In y (fold_left (fun s x => Set_add x s) values s)
                         <-> In y s \/ In y values).
  { induction values as [|x values IH]; intros s Hs; cbn [fold_left In].
    - split; [exact Hs|intuition].
    - destruct (IH (Set_add x s) (Set_add_NoDup x s Hs)) as [Hnd Hin].
      split; [exact Hnd|]. intros y. rewrite Hin, Set_add_In. intuition. }
  destruct (H [] (List.NoDup_nil _)) as [Hnd Hin].
  split; [exact Hnd|]. intros y. rewrite Hin. cbn. intuition.
Qed.

(** X1. For an order that is total on strings, [getUniqueCounties] returns
    the county names in strictly ascending order (so without duplicates):
    exactly the non-empty [county] values that occur in the data. *)
Theorem getUniqueCounties_sorted_distinct (codeUnitCompare : string -> string -> Z)
    (data : list area) :
  (forall a b, codeUnitCompare a b < 0 <-> 0 < codeUnitCompare b a) ->
  (forall a b c, codeUnitCompare a b <= 0 -> codeUnitCompare b c <= 0 ->
                 codeUnitCompare a c <= 0) ->
  (forall a b, codeUnitCompare a b = 0 -> a = b) ->
  StronglySorted (fun a b => codeUnitCompare a b < 0)
    (getUniqueCounties codeUnitCompare data)
  /\ List.NoDup (getUniqueCounties codeUnitCompare data)
  /\ (forall c, In c (getUniqueCounties codeUnitCompare data)
                <-> c <> "" /\ exists item, In item data /\ county item = Some c).
Proof.
  intros Hflip Htrans Hsep. unfold getUniqueCounties.
  set (values := map _ (List.filter _ data)).
  destruct (Set_from_spec values) as [Hnd Hin].
  assert (HndS : List.NoDup (js_sort codeUnitCompare (Set_from values)))
    by (eapply Permutation_NoDup; [symmetry; apply js_sort_perm|exact Hnd]).
  split; [|split; [exact HndS|]].
  - apply sorted_strict; [exact HndS|auto|].
    now apply js_sort_sorted.
  - intros c.
    assert (In c (js_sort codeUnitCompare (Set_from values)) <-> In c values) as ->.
    { rewrite <- Hin. split; apply Permutation_in;
        [apply js_sort_perm|symmetry; apply js_sort_perm]. }
    unfold values. rewrite in_map_iff. split.
    + intros (item & Hc & Hitem). apply filter_In in Hitem as [Hitem Hfilled].
      destruct (county item) as [c'|] eqn:E; [|discriminate]. subst c'.
      cbn in Hfilled. split; [now apply truthy_true|now exists item].
    + intros (Hne & item & Hitem & E). exists item. rewrite E.
      split; [reflexivity|]. apply filter_In. split; [exact Hitem|].
      rewrite E. cbn. now apply truthy_true.
Qed.

(** The counties of the test-suite, under the code-unit order of bytes. *)
Lemma getUniqueCounties_sorted_distinct_witness :
  let data := [ mkArea "Area 1" None "ward" (Some "Nairobi") None;
                mkArea "Area 2" None "ward" (Some "Mombasa") None;
                mkArea "Area 3" None "ward" (Some "Nairobi") None;
                mkArea "Area 5" None "ward" None None;
                mkArea "Area 4" None "ward" (Some "Kisumu") None ] in
  getUniqueCounties lexCompare data = ["Kisumu"; "Mombasa"; "Nairobi"]
  /\ List.NoDup (getUniqueCounties lexCompare data).
Proof.
  intros data. split; [reflexivity|].
  destruct (getUniqueCounties_sorted_distinct lexCompare data) as (_ & Hnd & _).
  - apply lexCompare_flip.
  - apply lexCompare_trans.
  - apply lexCompare_separates.
  - exact Hnd.
Defined.

(** ** More on sorting *)

Section SortOn.
Context {A : Type}.
Variable compare : A -> A -> Z.
Variable P : A -> Prop.

(** The comparator is consistent on the elements that satisfy [P]. *)
Hypothesis flip_on :
  forall a b, P a -> P b -> (compare a b < 0 <-> 0 < compare b a).
Hypothesis trans_on :
  forall a b c, P a -> P b -> P c ->
    compare a b <= 0 -> compare b c <= 0 -> compare a c <= 0.

Lemma insert_sorted_Forall x l : P x -> Forall P l -> Forall P (insert_sorted compare x l).
Proof.
  intros Hx Hl. eapply Permutation_Forall; [symmetry; apply insert_sorted_perm|].
  now constructor.
Qed.

Lemma insert_sorted_sorted_on x l :
  P x -> Forall P l ->
  StronglySorted (fun a b => compare a b <= 0) l ->
  StronglySorted (fun a b => compare a b <= 0) (insert_sorted compare x l).
Proof.
  intros Hx HP Hs. induction Hs as [|y l Hl IH Hy]; cbn [insert_sorted].
  - repeat constructor.
  - apply Forall_cons_iff in HP as [Py HP].
    destruct (Z.leb_spec (compare x y) 0) as [Hle|Hgt].
    + constructor; [now constructor|].
      constructor; [exact Hle|].
      rewrite Forall_forall in Hy, HP. apply Forall_forall. intros z Hz.
      apply (trans_on x y z); auto.
    + constructor; [now apply IH|].
      eapply Permutation_Forall; [symmetry; apply insert_sorted_perm|].
      constructor; [|exact Hy].
      apply (flip_on y x) in Hgt; auto. lia.
Qed.

Lemma js_sort_sorted_on l :
  Forall P l -> StronglySorted (fun a b => compare a b <= 0) (js_sort compare l).
Proof.
  induction 1 as [|x l Hx Hl IH]; cbn [js_sort]; [constructor|].
  apply insert_sorted_sorted_on; [exact Hx| |exact IH].
  eapply Permutation_Forall; [symmetry; apply js_sort_perm|exact Hl].
Qed.
End SortOn.

(** Sorting a sorted array changes nothing. *)
Lemma js_sort_sorted_id {A} (compare : A -> A -> Z) l :
  StronglySorted (fun a b => compare a b <= 0) l -> js_sort compare l = l.
Proof.
  induction 1 as [|x l Hl IH Hx]; cbn [js_sort]; [reflexivity|].
  rewrite IH. destruct l as [|y l]; [reflexivity|].
  cbn [insert_sorted]. apply Forall_cons_iff in Hx as [Hxy _].
  destruct (Z.leb_spec (compare x y) 0); [reflexivity|lia].
Qed.

Lemma valid_type_typeOrder r :
  valid_type r = true ->
  exists t, typeOrder (type r) = Some t /\ 1 <= t <= 3.
Proof.
  unfold valid_type, has_type, typeOrder. intros H.
  destruct (String.eqb (type r) "county"); [exists 1; split; [reflexivity|lia]|].
  destruct (String.eqb (type r) "constituency"); [exists 2; split; [reflexivity|lia]|].
  destruct (String.eqb (type r) "ward"); [exists 3; split; [reflexivity|lia]|].
  discriminate.
Qed.

Section SortByType.
Variable localeCompare : string -> string -> Z.
Hypothesis localeCompare_flip :
  forall a b, localeCompare a b < 0 <-> 0 < localeCompare b a.
Hypothesis localeCompare_trans :
  forall a b c, localeCompare a b <= 0 -> localeCompare b c <= 0 ->
                localeCompare a c <= 0.

Lemma compare_type_le a b :
  valid_type a = true -> valid_type b = true ->
  (compare_type localeCompare a b <= 0 <-> type_then_name localeCompare a b).
Proof.
  intros Ha Hb. unfold compare_type, type_then_name.
  destruct (valid_type_typeOrder a Ha) as (ta & -> & _).
  destruct (valid_type_typeOrder b Hb) as (tb & -> & _).
  destruct (Z.eqb_spec (ta - tb) 0); cbn [negb]; lia.
Qed.

Lemma compare_type_flip a b :
  valid_type a = true -> valid_type b = true ->
  (compare_type localeCompare a b < 0 <-> 0 < compare_type localeCompare b a).
Proof.
  intros Ha Hb. unfold compare_type.
  destruct (valid_type_typeOrder a Ha) as (ta & -> & _).
  destruct (valid_type_typeOrder b Hb) as (tb & -> & _).
  destruct (Z.eqb_spec (ta - tb) 0), (Z.eqb_spec (tb - ta) 0); cbn [negb];
    try lia. apply localeCompare_flip.
Qed.

Lemma compare_type_trans a b c :
  valid_type a = true -> valid_type b = true -> valid_type c = true ->
  compare_type localeCompare a b <= 0 -> compare_type localeCompare b c <= 0 ->
  compare_type localeCompare a c <= 0.
Proof.
  intros Ha Hb Hc. rewrite !compare_type_le by assumption.
  unfold type_then_name.
  destruct (valid_type_typeOrder a Ha) as (ta & -> & _).
  destruct (valid_type_typeOrder b Hb) as (tb & -> & _).
  destruct (valid_type_typeOrder c Hc) as (tc & -> & _).
  intros [H1|[H1 L1]] [H2|[H2 L2]]; try (left; lia).
  right. split; [lia|]. eapply localeCompare_trans; eassumption.
Qed.

Lemma type_then_name_sorted (l : list area) :
  StronglySorted (fun a b => compare_type localeCompare a b <= 0) l ->
  Forall (fun r => valid_type r = true) l ->
  StronglySorted (type_then_name localeCompare) l.
Proof.
  induction 1 as [|x l Hl IH Hx]; intros Hv; [constructor|].
  apply Forall_cons_iff in Hv as [Vx Vl].
  constructor; [now apply IH|].
  rewrite Forall_forall in Hx, Vl. apply Forall_forall. intros y Hy.
  apply compare_type_le; auto.
Qed.

Lemma sort_switch_type_sorted (R : list area) :
  Forall (fun r => valid_type r = true) R ->
  StronglySorted (fun a b => compare_type localeCompare a b <= 0)
    (sort_switch localeCompare "type" R).
Proof.
  intros HR.
  change (sort_switch localeCompare "type" R)
    with (js_sort (compare_type localeCompare) R).
  apply js_sort_sorted_on with (P := fun r => valid_type r = true);
    [apply compare_type_flip|apply compare_type_trans|exact HR].
Qed.

Lemma sort_switch_sorted_twice (sortBy : string) (R : list area) :
  (sortBy = "type" -> Forall (fun r => valid_type r = true) R) ->
  sort_switch localeCompare sortBy (sort_switch localeCompare sortBy R)
  = sort_switch localeCompare sortBy R.
Proof.
  intros Hvalid.
  remember (sort_switch localeCompare sortBy R) as S eqn:ES.
  unfold sort_switch.
  destruct (String.eqb_spec sortBy "name") as [->|_].
  { apply js_sort_sorted_id. subst S.
    change (sort_switch localeCompare "name" R)
      with (js_sort (compare_name localeCompare) R).
    apply js_sort_sorted; unfold compare_name; intros;
      [apply localeCompare_flip|eapply localeCompare_trans]; eassumption. }
  destruct (String.eqb_spec sortBy "name-desc") as [->|_].
  { apply js_sort_sorted_id. subst S.
    change (sort_switch localeCompare "name-desc" R)
      with (js_sort (compare_name_desc localeCompare) R).
    apply js_sort_sorted; unfold compare_name_desc; intros;
      [apply localeCompare_flip|eapply localeCompare_trans]; eassumption. }
  destruct (String.eqb_spec sortBy "type") as [->|_]; [|reflexivity].
  apply js_sort_sorted_id. subst S. now apply sort_switch_type_sorted, Hvalid.
Qed.
End SortByType.

Lemma sort_switch_perm localeCompare sortBy (R : list area) :
  Permutation (sort_switch localeCompare sortBy R) R.
Proof.
  unfold sort_switch.
  repeat match goal with
         | |- context [if ?b then _ else _] => destruct b
         end; try apply js_sort_perm. reflexivity.
Qed.

(** X2. Whatever the sort key and the collation, the array [sortData]
    returns holds exactly the records of the input, each as often as the
    input does; for a key that is not recognised it holds them in the
    input's order. *)
Theorem sortData_permutation (localeCompare : string -> string -> Z)
    (h : gmap loc (list area)) (data : loc) (R : list area) (sortBy : string) :
  h !! data = Some R ->
  exists sorted h' l,
    sortData localeCompare data sortBy h = Some (sorted, h')
    /\ h' !! sorted = Some l
    /\ Permutation l R
    /\ length l = length R
    /\ (sortBy <> "name" -> sortBy <> "name-desc" -> sortBy <> "type" -> l = R).
Proof.
  intros Hdata.
  destruct (sortData_heap localeCompare h data R sortBy Hdata)
    as (sorted & h' & E & _ & _ & Hres & _).
  exists sorted, h', (sort_switch localeCompare sortBy R).
  split; [exact E|]. split; [exact Hres|].
  split; [apply sort_switch_perm|].
  split; [apply Permutation_length, sort_switch_perm|].
  intros H1 H2 H3. unfold sort_switch.
  apply String.eqb_neq in H1, H2, H3. now rewrite H1, H2, H3.
Qed.

(** Sorting the test records by a key the switch does not know. *)
Lemma sortData_permutation_witness :
  sort_heap !! 0%nat = Some sort_records
  /\ exists sorted h',
       sortData lexCompare 0%nat "code" sort_heap = Some (sorted, h')
       /\ h' !! sorted = Some sort_records.
Proof.
  split; [reflexivity|].
  destruct (sortData_permutation lexCompare sort_heap 0%nat sort_records "code")
    as (sorted & h' & l & E & Hl & _ & _ & Hid); [reflexivity|].
  exists sorted, h'. split; [exact E|].
  rewrite Hl, Hid; [reflexivity|discriminate|discriminate|discriminate].
Defined.

(** X3. For a consistent collation and records typed by the enumeration,
    [sortData(R, "type")] returns the records of [R] with counties first,
    then constituencies, then wards, and within one type in ascending name
    order. *)
Theorem sortData_type_order (localeCompare : string -> string -> Z)
    (h : gmap loc (list area)) (data : loc) (R : list area) :
  (forall a b, localeCompare a b < 0 <-> 0 < localeCompare b a) ->
  (forall a b c, localeCompare a b <= 0 -> localeCompare b c <= 0 ->
                 localeCompare a c <= 0) ->
  Forall (fun r => valid_type r = true) R ->
  h !! data = Some R ->
  exists sorted h' l,
    sortData localeCompare data "type" h = Some (sorted, h')
    /\ h' !! sorted = Some l
    /\ Permutation l R
    /\ StronglySorted (type_then_name localeCompare) l.
Proof.
  intros Hflip Htrans Hvalid Hdata.
  destruct (sortData_heap localeCompare h data R "type" Hdata)
    as (sorted & h' & E & _ & _ & Hres & _).
  exists sorted, h', (sort_switch localeCompare "type" R).
  split; [exact E|]. split; [exact Hres|].
  split; [apply sort_switch_perm|].
  pose proof (sort_switch_type_sorted localeCompare Hflip Htrans R Hvalid) as Hs.
  assert (Hv : Forall (fun r => valid_type r = true)
                 (sort_switch localeCompare "type" R))
    by (eapply Permutation_Forall; [symmetry; apply sort_switch_perm|exact Hvalid]).
  now apply type_then_name_sorted.
Qed.

(** The test records by type: county, constituency, ward. *)
Lemma sortData_type_order_witness :
  Forall (fun r => valid_type r = true) sort_records
  /\ exists sorted h' l,
       sortData lexCompare 0%nat "type" sort_heap = Some (sorted, h')
       /\ h' !! sorted = Some l
       /\ StronglySorted (type_then_name lexCompare) l
       /\ map type l = ["county"; "constituency"; "ward"].
Proof.
  assert (Hv : Forall (fun r => valid_type r = true) sort_records)
    by (repeat constructor).
  split; [exact Hv|].
  destruct (sortData_type_order lexCompare sort_heap 0%nat sort_records
              lexCompare_flip lexCompare_trans Hv eq_refl)
    as (sorted & h' & l & E & Hl & _ & Hs).
  exists sorted, h', l. repeat split; try assumption.
  vm_compute in E. injection E as <- <-.
  vm_compute in Hl. injection Hl as <-. reflexivity.
Defined.

(** X4. For a consistent collation, sorting the result of [sortData] again
    by the same key gives the same sequence (for the key ["type"], on
    records typed by the enumeration). *)
Theorem sortData_idempotent (localeCompare : string -> string -> Z)
    (h : gmap loc (list area)) (data : loc) (R : list area) (sortBy : string) :
  (forall a b, localeCompare a b < 0 <-> 0 < localeCompare b a) ->
  (forall a b c, localeCompare a b <= 0 -> localeCompare b c <= 0 ->
                 localeCompare a c <= 0) ->
  (sortBy = "type" -> Forall (fun r => valid_type r = true) R) ->
  h !! data = Some R ->
  exists once h1 twice h2 l,
    sortData localeCompare data sortBy h = Some (once, h1)
    /\ sortData localeCompare once sortBy h1 = Some (twice, h2)
    /\ h1 !! once = Some l
    /\ h2 !! twice = Some l
    /\ h2 !! data = Some R.
Proof.
  intros Hflip Htrans Hvalid Hdata.
  destruct (sortData_heap localeCompare h data R sortBy Hdata)
    as (once & h1 & E1 & _ & Hne1 & Hres1 & Hframe1).
  destruct (sortData_heap localeCompare h1 once _ sortBy Hres1)
    as (twice & h2 & E2 & Hnew2 & _ & Hres2 & Hframe2).
  exists once, h1, twice, h2, (sort_switch localeCompare sortBy R).
  split; [exact E1|]. split; [exact E2|]. split; [exact Hres1|].
  split.
  - rewrite Hres2. f_equal. now apply sort_switch_sorted_twice.
  - rewrite Hframe2, Hframe1; [exact Hdata|congruence|].
    intros ->. rewrite Hframe1 in Hnew2 by congruence. congruence.
Qed.

(** Sorting the test records twice by type. *)
Lemma sortData_idempotent_witness :
  exists once h1 twice h2 l,
    sortData lexCompare 0%nat "type" sort_heap = Some (once, h1)
    /\ sortData lexCompare once "type" h1 = Some (twice, h2)
    /\ h1 !! once = Some l /\ h2 !! twice = Some l.
Proof.
  destruct (sortData_idempotent lexCompare sort_heap 0%nat sort_records "type"
              lexCompare_flip lexCompare_trans)
    as (once & h1 & twice & h2 & l & E1 & E2 & L1 & L2 & _);
    [intros _; repeat constructor|reflexivity|].
  exists once, h1, twice, h2, l. auto.
Defined.

(** ** More on the fetch wrapper *)

(** X5. [_fetchJSON] ends at the first attempt that is not a retryable
    failure (a decoded answer, a status error or a malformed JSON body), if
    that attempt is within the retry budget: its completion is the result of
    the call, after the back-off delays of the failed attempts before it.
    In particular a call recovers from transient failures. *)
Theorem fetchJSON_first_decisive (net : network) (url : string)
    (options : fetch_options) (timeout : Z) (retries : nat) (w : world) (k : nat) :
  (k <= retries)%nat ->
  (forall i, (i < k)%nat ->
     retryable (nth_attempt net url options timeout w i) = true) ->
  retryable (nth_attempt net url options timeout w k) = false ->
  let r := _fetchJSON net url options timeout retries w in
  fst r = nth_attempt net url options timeout w k
  /\ trace (snd r) = trace w ++ attempts_trace url 0 k
  /\ requests (snd r) = (requests w + S k)%nat.
Proof.
  intros Hk Hbefore Hdecisive r.
  destruct (fetchJSON_stops net url options timeout retries w)
    as (n & Hn & Hc & Ht & Hr & _ & Hall & Hlast).
  assert (n = k) as ->.
  { destruct (Nat.lt_trichotomy n k) as [Hlt|[Heq|Hgt]]; [|assumption|].
    - specialize (Hlast ltac:(lia)). rewrite Hbefore in Hlast by assumption.
      discriminate.
    - specialize (Hall k Hgt). congruence. }
  subst r. auto.
Qed.

(** Two failed attempts, then an answer: the payload is returned after the
    delays of 1000 ms and 2000 ms. *)
Lemma fetchJSON_first_decisive_witness :
  let w := world_of live_service in
  let r := _fetchJSON flaky_network "/counties" [] 8000 2 w in
  fst r = Returned JsonNull
  /\ trace (snd r)
     = [Fetch "/counties"; Sleep 1000; Fetch "/counties"; Sleep 2000; Fetch "/counties"].
Proof.
  intros w r.
  destruct (fetchJSON_first_decisive flaky_network "/counties" [] 8000 2 w 2)
    as (Hc & Ht & _).
  - lia.
  - intros [|[|i]] Hi; [reflexivity|reflexivity|lia].
  - reflexivity.
  - split; [exact Hc|exact Ht].
Defined.

Lemma backoff_bounds attempt : 1000 <= backoff attempt <= 8000.
Proof.
  unfold backoff. split; [|apply Z.le_min_r].
  apply Z.min_glb; [|lia].
  assert (0 < 2 ^ Z.of_nat attempt) by (apply Z.pow_pos_nonneg; lia). lia.
Qed.

Lemma delays_app t1 t2 : delays (t1 ++ t2) = delays t1 ++ delays t2.
Proof.
  induction t1 as [|e t1 IH]; [reflexivity|].
  destruct e; cbn [app delays]; rewrite IH; reflexivity.
Qed.

Lemma total_delay_backoff first more :
  total_delay (map backoff (seq first more)) <= 8000 * Z.of_nat more.
Proof.
  revert first. induction more as [|more IH]; intros first; [cbn; lia|].
  cbn [seq map total_delay fold_right]. fold (total_delay (map backoff (seq (S first) more))).
  specialize (IH (S first)). pose proof (backoff_bounds first).
  rewrite Nat2Z.inj_succ.
  generalize dependent (total_delay (map backoff (seq (S first) more))).
  generalize dependent (backoff first). intros; lia.
Qed.

Lemma backoff_seq_sorted first more :
  StronglySorted Z.le (map backoff (seq first more)).
Proof.
  revert first. induction more as [|more IH]; intros first; [constructor|].
  cbn [seq map]. constructor; [apply IH|].
  apply Forall_forall. intros d Hd. apply list_elem_of_In, in_map_iff in Hd.
  destruct Hd as (a & <- & Ha). apply in_seq in Ha.
  unfold backoff. apply Z.min_le_compat_r.
  apply Z.mul_le_mono_nonneg_l; [lia|].
  apply Z.pow_le_mono_r; lia.
Qed.

(** X6. The time a call of [_fetchJSON] spends waiting between attempts is
    bounded: it sleeps at most [retries] times, each time between 1000 and
    8000 ms, the delays never decrease, and with the default budget of two
    retries it sleeps 3000 ms at most. *)
Theorem fetchJSON_backoff_bounded (net : network) (url : string)
    (options : fetch_options) (timeout : Z) (retries : nat) (w : world) :
  exists ds,
    delays (trace (snd (_fetchJSON net url options timeout retries w)))
    = delays (trace w) ++ ds
    /\ (length ds <= retries)%nat
    /\ Forall (fun d => 1000 <= d <= 8000) ds
    /\ StronglySorted Z.le ds
    /\ total_delay ds <= 8000 * Z.of_nat retries
    /\ (retries = 2%nat -> total_delay ds <= 3000).
Proof.
  destruct (fetchJSON_stops net url options timeout retries w)
    as (n & Hn & _ & Ht & _).
  exists (map backoff (seq 0 n)).
  split; [now rewrite Ht, delays_app, attempts_trace_delays|].
  split; [now rewrite length_map, length_seq|].
  split.
  { apply Forall_forall. intros d Hd. apply list_elem_of_In, in_map_iff in Hd.
    destruct Hd as (a & <- & _). apply backoff_bounds. }
  split.
  { apply backoff_seq_sorted. }
  split.
  { pose proof (total_delay_backoff 0 n). lia. }
  intros ->.
  destruct n as [|[|[|n]]];
    [apply Z.leb_le; reflexivity|apply Z.leb_le; reflexivity
    |apply Z.leb_le; reflexivity|lia].
Qed.

(** The flaky source with the default budget: delays of 1000 and 2000 ms. *)
Lemma fetchJSON_backoff_bounded_witness :
  let w := world_of live_service in
  delays (trace (snd (_fetchJSON flaky_network "/counties" [] 8000 2 w)))
  = [1000; 2000]
  /\ exists ds,
       delays (trace (snd (_fetchJSON flaky_network "/counties" [] 8000 2 w)))
       = delays (trace w) ++ ds
       /\ total_delay ds <= 3000.
Proof.
  intros w. split; [reflexivity|].
  destruct (fetchJSON_backoff_bounded flaky_network "/counties" [] 8000 2 w)
    as (ds & Hds & _ & _ & _ & _ & Hdefault).
  exists ds. split; [exact Hds|exact (Hdefault eq_refl)].
Defined.

(** ** The county list *)

(** X7. [fetchCounties] never raises: it returns a county list or, when
    a response body never ends, waits for ever; it returns whenever no body
    stalls.  It leaves the service's fields as they were and makes at most
    three requests.  With the mock flag set it returns the built-in counties
    without any effect; otherwise it returns the [counties] of the answer, an
    empty list when the answer has none, the built-in counties when the fetch
    raises, and it waits when the fetch does. *)
Theorem fetchCounties_never_fails (net : network) (w : world) :
  let r := fetchCounties net w in
  let fetched := _fetchJSON net (apiBase (this w) +:+ "/counties") [] 8000 2 w in
  (forall e, fst r <> Threw e)
  /\ ((exists arr, fst r = Returned arr) \/ fst r = NeverSettles)
  /\ (no_stalled_body net -> exists arr, fst r = Returned arr)
  /\ this (snd r) = this w
  /\ (requests w <= requests (snd r) <= requests w + 3)%nat
  /\ (useMockData (this w) = true ->
      r = (Returned (Array (map Some getMockCounties)), w))
  /\ (useMockData (this w) = false ->
      forall e, fst fetched = Threw e ->
                fst r = Returned (Array (map Some getMockCounties)))
  /\ (useMockData (this w) = false ->
      forall data, fst fetched = Returned data ->
                   fst r = Returned (counties_of data)
                   /\ ((forall cs ks, data = JsonObject cs ks -> cs = Falsy) ->
                       counties_of data = Array []))
  /\ (useMockData (this w) = false ->
      fst fetched = NeverSettles -> fst r = NeverSettles).
Proof.
  intros r fetched.
  split; [apply never_throws_fetchCounties|].
  split; [apply fetchCounties_ends|].
  split; [intros Hnet; now apply returns_fetchCounties|].
  destruct (quiet_fetchCounties net w) as [Hthis Hreq].
  split; [exact Hthis|]. split; [exact Hreq|].
  subst r fetched. unfold fetchCounties, try_catch, bind, get_this.
  split; [intros ->; reflexivity|].
  split; [|split].
  - intros -> e He.
    destruct (_fetchJSON net (apiBase (this w) +:+ "/counties") [] 8000 2 w) as [c w'].
    cbn [fst] in He. subst c. reflexivity.
  - intros -> data Hd.
    destruct (_fetchJSON net (apiBase (this w) +:+ "/counties") [] 8000 2 w) as [c w'].
    cbn [fst] in Hd. subst c. split; [reflexivity|].
    intros H. destruct data as [| | | |cs ks]; try reflexivity.
    now rewrite (H cs ks eq_refl).
  - intros -> Hd.
    destruct (_fetchJSON net (apiBase (this w) +:+ "/counties") [] 8000 2 w) as [c w'].
    cbn [fst] in Hd. subst c. reflexivity.
Qed.

(** A remote source that does not answer: the built-in counties, after
    three requests; a source whose bodies stall keeps the call waiting. *)
Lemma fetchCounties_never_fails_witness :
  let net : network := fun _ _ _ => Hangs in
  let w := world_of live_service in
  useMockData (this w) = false
  /\ no_stalled_body net
  /\ fst (fetchCounties net w) = Returned (Array (map Some getMockCounties))
  /\ requests (snd (fetchCounties net w)) = 3%nat
  /\ fst (fetchCounties stalling_network w) = NeverSettles
  /\ requests (snd (fetchCounties stalling_network w)) = 1%nat.
Proof.
  intros net w. split; [reflexivity|].
  assert (Hnet : no_stalled_body net) by (intros n url options latency res H; discriminate).
  split; [exact Hnet|].
  destruct (fetchCounties_never_fails net w)
    as (_ & _ & Hret & _ & _ & _ & Hfall & _).
  destruct (Hret Hnet) as [arr Harr].
  split; [apply (Hfall eq_refl AbortError); reflexivity|].
  split; [reflexivity|].
  destruct (fetchCounties_never_fails stalling_network w)
    as (_ & _ & _ & _ & _ & _ & _ & _ & Hwait).
  split; [apply (Hwait eq_refl); reflexivity|reflexivity].
Defined.

(** ** The cache of the assembled collection *)

(** X8. In live mode a collection that is cached is returned as it is,
    without a request and without touching the service; and when a call
    assembles a collection from the remote source, that collection is cached,
    so the next call returns the same collection without any request,
    whatever the remote side would answer then. *)
Theorem fetchAllAreas_served_from_cache (net : network) (w : world) :
  useMockData (this w) = false ->
  (forall rows,
      cache (this w) !! "allAreas" = Some rows ->
      fst (fetchAllAreas net w) = Returned rows
      /\ requests (snd (fetchAllAreas net w)) = requests w
      /\ this (snd (fetchAllAreas net w)) = this w)
  /\ (cache (this w) !! "allAreas" = None ->
      forall rows,
        fst (fetchAllAreas_try net w) = Returned rows ->
        let w1 := snd (fetchAllAreas net w) in
        fst (fetchAllAreas net w) = Returned rows
        /\ cache (this w1) !! "allAreas" = Some rows
        /\ forall net',
             fst (fetchAllAreas net' w1) = Returned rows
             /\ requests (snd (fetchAllAreas net' w1)) = requests w1).
Proof.
  intros Hlive. split.
  - intros rows Hhit. rewrite (fetchAllAreas_hit net w rows Hlive Hhit). auto.
  - intros Hmiss rows Hrows w1.
    destruct (fetchAllAreas_miss net w Hlive Hmiss) as (_ & Etry & Eall).
    set (wp := {| this := this w; requests := requests w;
                  trace := trace w ++ [CacheHas "allAreas"] |}) in *.
    rewrite Etry in Hrows.
    destruct (assembleAllAreas_outcome net wp)
      as [(e & _ & _ & _ & _ & He & _)
         |[(cs & wc & rows' & _ & _ & Hret & Hcache & Hmode & _)|Hwait]];
      [congruence| |congruence].
    rewrite Hret in Hrows. injection Hrows as ->.
    assert (Ew1 : w1 = snd (assembleAllAreas net wp)).
    { unfold w1. rewrite Eall.
      destruct (assembleAllAreas net wp) as [[v|e'| |] w']; try discriminate.
      reflexivity. }
    assert (Hfst : fst (fetchAllAreas net w) = Returned rows).
    { rewrite Eall. destruct (assembleAllAreas net wp) as [[v|e'| |] w'];
        try discriminate. exact Hret. }
    assert (Hc1 : cache (this w1) !! "allAreas" = Some rows)
      by (rewrite Ew1, Hcache; apply lookup_insert_eq).
    assert (Hm1 : useMockData (this w1) = false)
      by (rewrite Ew1, Hmode; exact Hlive).
    split; [exact Hfst|]. split; [exact Hc1|].
    intros net'. rewrite (fetchAllAreas_hit net' w1 rows Hm1 Hc1). auto.
Qed.

(** The sample source: the first call assembles four rows with three
    requests, the second call returns them with none. *)
Lemma fetchAllAreas_served_from_cache_witness :
  let w := world_of live_service in
  let w1 := snd (fetchAllAreas sample_network w) in
  useMockData (this w) = false
  /\ cache (this w) !! "allAreas" = None
  /\ requests w1 = 3%nat
  /\ fst (fetchAllAreas malformed_network w1) = fst (fetchAllAreas sample_network w)
  /\ requests (snd (fetchAllAreas malformed_network w1)) = 3%nat.
Proof.
  intros w w1. split; [reflexivity|]. split; [reflexivity|].
  assert (Hreq : requests w1 = 3%nat) by (vm_compute; reflexivity).
  split; [exact Hreq|].
  destruct (fetchAllAreas_served_from_cache sample_network w eq_refl) as [_ Hmiss].
  destruct (Hmiss eq_refl _ ltac:(vm_compute; reflexivity)) as (Hfst & _ & Hnext).
  destruct (Hnext malformed_network) as [H1 H2].
  fold w1 in H1, H2. split; [now rewrite H1, Hfst|now rewrite H2].
Defined.

(** X9. When the live path of [fetchAllAreas] raises, the built-in dataset
    is returned but not cached: cache, mode and base address are as before
    the call, so a later call tries the remote source again; at most three
    requests were made. *)
Theorem fetchAllAreas_fallback_not_cached (net : network) (w : world) (e : js_error) :
  fst (fetchAllAreas_try net w) = Threw e ->
  fst (fetchAllAreas net w) = Returned (map as_row getComprehensiveMockData)
  /\ this (snd (fetchAllAreas net w)) = this w
  /\ cache (this (snd (fetchAllAreas net w))) !! "allAreas" = None
  /\ (requests (snd (fetchAllAreas net w)) <= requests w + 3)%nat.
Proof.
  intros He.
  destruct (useMockData (this w)) eqn:Hmode.
  { unfold fetchAllAreas_try, bind, get_this in He. rewrite Hmode in He.
    discriminate. }
  destruct (cache (this w) !! "allAreas") as [rows|] eqn:Hc.
  { unfold fetchAllAreas_try, bind, get_this, cache_lookup in He.
    rewrite Hmode, Hc in He. discriminate. }
  destruct (fetchAllAreas_miss net w Hmode Hc) as (_ & Etry & Eall).
  set (wp := {| this := this w; requests := requests w;
                trace := trace w ++ [CacheHas "allAreas"] |}) in *.
  rewrite Etry in He. rewrite Eall.
  destruct (assembleAllAreas_outcome net wp)
    as [(e' & _ & _ & _ & _ & He' & Hthis & Hreq)
       |[(cs & wc & rows' & _ & _ & Hret & _)|Hwait]];
    [|congruence|congruence].
  destruct (assembleAllAreas net wp) as [[v|e''| |] w']; try discriminate.
  cbn [fst snd] in *. rewrite Hthis. cbn [this requests wp] in *.
  repeat split; try assumption. lia.
Qed.

(** The malformed county list: the built-in dataset, an empty cache still. *)
Lemma fetchAllAreas_fallback_not_cached_witness :
  let w := world_of live_service in
  fst (fetchAllAreas_try malformed_network w) = Threw TypeError
  /\ fst (fetchAllAreas malformed_network w)
     = Returned (map as_row getComprehensiveMockData)
  /\ this (snd (fetchAllAreas malformed_network w)) = live_service.
Proof.
  intros w.
  assert (He : fst (fetchAllAreas_try malformed_network w) = Threw TypeError)
    by (vm_compute; reflexivity).
  split; [exact He|].
  destruct (fetchAllAreas_fallback_not_cached malformed_network w TypeError He)
    as (H1 & H2 & _).
  split; [exact H1|exact H2].
Defined.

(** ** How many requests a call can make *)

Lemma yields_no_county_fetchAreasByCounty (net : network) countyName :
  yields (fetchAreasByCounty net countyName)
    (Forall (fun r => row_has_type "county" r = false)).
Proof.
  apply yields_try_catch; [|intros e; now apply yields_ret].
  apply yields_bind with (Q := fun _ => True); [easy|]. intros self _.
  destruct (useMockData self).
  { apply yields_ret. apply Forall_forall. intros r Hr.
    apply list_elem_of_In, in_map_iff in Hr as (item & <- & Hitem).
    apply filter_In in Hitem as [_ Hitem].
    apply andb_true_iff in Hitem as [_ Hitem]. now apply negb_true_iff in Hitem. }
  apply yields_bind with (Q := fun _ => True); [easy|]. intros data _.
  apply yields_bind with (Q := fun _ => True); [easy|]. intros ks _.
  destruct ks as [| |items]; [now apply yields_ret|apply yields_throw|].
  apply yields_forEach_items with (P := fun _ => True);
    [|apply Forall_forall; now intros [?|] _|constructor].
  intros k acc _ Hacc. unfold push_constituency.
  assert (Hacc' : Forall (fun r => row_has_type "county" r = false)
                    (acc ++ [constituency_row countyName k]))
    by (apply Forall_app; split; [exact Hacc|now repeat constructor]).
  destruct (constituency_wards k) as [| |ws];
    [now apply yields_ret|apply yields_throw|].
  apply yields_forEach_items with (P := fun _ => True);
    [|apply Forall_forall; now intros [?|] _|exact Hacc'].
  intros ward rows _ Hrows. apply yields_ret.
  apply Forall_app. split; [exact Hrows|now repeat constructor].
Qed.

Lemma count_rows_app t R1 R2 :
  count_rows t (R1 ++ R2) = (count_rows t R1 + count_rows t R2)%nat.
Proof.
  induction R1 as [|r R1 IH]; [reflexivity|].
  cbn [app count_rows]. rewrite IH. lia.
Qed.

Lemma count_rows_none t R :
  Forall (fun r => row_has_type t r = false) R -> count_rows t R = 0%nat.
Proof.
  induction 1 as [|r R Hr _ IH]; [reflexivity|].
  cbn [count_rows]. unfold row_has_type in Hr. now rewrite Hr, IH.
Qed.

Lemma count_rows_county_rows cs :
  count_rows "county" (map county_row cs) = length cs.
Proof.
  induction cs as [|c cs IH]; [reflexivity|].
  cbn [map count_rows length]. rewrite IH. reflexivity.
Qed.

Lemma county_contributions_no_county (net : network) cs : forall w,
  Forall (fun r => row_has_type "county" r = false)
    (concat (county_contributions net cs w)).
Proof.
  induction cs as [|c cs IH]; intros w; [constructor|].
  cbn [county_contributions concat]. apply Forall_app. split; [|apply IH].
  pose proof (yields_no_county_fetchAreasByCounty net (county_name c) w) as H.
  destruct (fst (fetchAreasByCounty net (county_name c) w)) as [areas| | |];
    [now apply H|constructor|constructor|constructor].
Qed.

Lemma fetchAllAreas_mock_rows (net : network) (w : world) :
  useMockData (this w) = true ->
  fetchAllAreas net w = (Returned (map as_row getComprehensiveMockData), w).
Proof.
  intros Hmock.
  unfold fetchAllAreas, try_catch, fetchAllAreas_try, bind, get_this.
  now rewrite Hmock.
Qed.

(** X10. When a call of [fetchAllAreas] returns, it has made at most three
    requests for the county list and three per county record of the
    collection it returns; with the mock flag set, or with a cached
    collection, it returns without any request; and it returns whenever no
    response body stalls. *)
Theorem fetchAllAreas_request_bound (net : network) (w : world) :
  (forall rows,
      fst (fetchAllAreas net w) = Returned rows ->
      (requests w <= requests (snd (fetchAllAreas net w))
       <= requests w + 3 + 3 * count_rows "county" rows)%nat)
  /\ (useMockData (this w) = true \/ is_Some (cache (this w) !! "allAreas") ->
      requests (snd (fetchAllAreas net w)) = requests w
      /\ exists rows, fst (fetchAllAreas net w) = Returned rows)
  /\ (no_stalled_body net -> exists rows, fst (fetchAllAreas net w) = Returned rows).
Proof.
  split; [|split; [|intros Hnet; now apply returns_fetchAllAreas]].
  - intros rows Hrows.
    destruct (useMockData (this w)) eqn:Hmode.
    { rewrite (fetchAllAreas_mock_rows net w Hmode). cbn [snd]. lia. }
    destruct (cache (this w) !! "allAreas") as [cached|] eqn:Hc.
    { rewrite (fetchAllAreas_hit net w cached Hmode Hc). cbn [snd requests]. lia. }
    destruct (fetchAllAreas_miss net w Hmode Hc) as (_ & _ & Eall).
    set (wp := {| this := this w; requests := requests w;
                  trace := trace w ++ [CacheHas "allAreas"] |}) in *.
    rewrite Eall in Hrows |- *.
    destruct (assembleAllAreas_outcome net wp)
      as [(e & _ & _ & _ & _ & He & _ & Hreq)
         |[(cs & wc & rows' & _ & Hrows' & Hret & _ & _ & _ & Hreq)|Hwait]];
      destruct (assembleAllAreas net wp) as [[v|e'| |] w'];
      cbn [fst snd requests wp] in *; try discriminate.
    + lia.
    + injection Hret as ->. injection Hrows as <-.
      rewrite Hrows', count_rows_app, count_rows_county_rows.
      rewrite (count_rows_none _ _ (county_contributions_no_county net cs wc)). lia.
  - intros Hquick.
    destruct (useMockData (this w)) eqn:Hmode.
    { rewrite (fetchAllAreas_mock_rows net w Hmode). cbn [fst snd].
      split; [reflexivity|eauto]. }
    destruct Hquick as [Hquick|[cached Hc]]; [discriminate|].
    rewrite (fetchAllAreas_hit net w cached Hmode Hc). cbn [fst snd requests].
    split; [reflexivity|eauto].
Qed.

(** The sample source: two county records, three requests; the source that
    cannot be reached: five county records, eighteen requests. *)
Lemma fetchAllAreas_request_bound_witness :
  let w := world_of live_service in
  no_stalled_body sample_network
  /\ requests (snd (fetchAllAreas sample_network w)) = 3%nat
  /\ requests (snd (fetchAllAreas unreachable_network w)) = 18%nat
  /\ exists rows,
       fst (fetchAllAreas sample_network w) = Returned rows
       /\ count_rows "county" rows = 2%nat
       /\ (requests (snd (fetchAllAreas sample_network w))
           <= requests w + 3 + 3 * count_rows "county" rows)%nat.
Proof.
  intros w. split; [exact sample_network_no_stall|].
  split; [vm_compute; reflexivity|]. split; [vm_compute; reflexivity|].
  destruct (fetchAllAreas_request_bound sample_network w) as (Hbound & _ & Hret).
  destruct (Hret sample_network_no_stall) as [rows Hrows].
  exists rows. split; [exact Hrows|].
  split; [|apply (Hbound rows Hrows)].
  assert (E : fst (fetchAllAreas sample_network w)
              = Returned
                  [ mkRow (Some "Kwale") (Some "002") "county" (Some "Kwale") None;
                    mkRow (Some "Lamu") (Some "005") "county" (Some "Lamu") None;
                    mkRow (Some "Lamu East") (Some "005-01") "constituency"
                      (Some "Lamu") None;
                    mkRow (Some "Faza") (Some "005-01-01") "ward" (Some "Lamu")
                      (Some "Lamu East") ])
    by (vm_compute; reflexivity).
  rewrite E in Hrows. injection Hrows as <-. reflexivity.
Defined.

(** ** The areas of a county *)

Lemma omap_id_Some {A} (xs : list A) : omap id (map Some xs) = xs.
Proof. induction xs as [|x xs IH]; [reflexivity|]. cbn. now rewrite IH. Qed.

Lemma no_null_entries {A} (items : list (option A)) :
  Forall (fun o => o <> None) items -> items = map Some (omap id items).
Proof.
  induction 1 as [|[x|] items Hx _ IH]; [reflexivity| |now elim Hx].
  cbn. now rewrite <- IH.
Qed.

Lemma forEach_items_ward_rows countyName c (ws : list ward_entry) : forall acc w,
  forEach_items (map Some ws)
    (fun ward areas => ret (areas ++ [ward_row countyName c ward])) acc w
  = (Returned (acc ++ map (ward_row countyName c) ws), w).
Proof.
  induction ws as [|x ws IH]; intros acc w; cbn [map forEach_items].
  - unfold ret. now rewrite app_nil_r.
  - unfold bind, ret at 1. rewrite IH. now rewrite <- app_assoc.
Qed.

Lemma push_constituency_rows countyName c acc w :
  wards_well_formed c ->
  push_constituency countyName c acc w
  = (Returned (acc ++ constituency_rows countyName c), w).
Proof.
  unfold wards_well_formed, push_constituency, constituency_rows, wards_of.
  destruct (constituency_wards c) as [| |items]; intros Hwf.
  - reflexivity.
  - now elim Hwf.
  - cbn [forEach]. rewrite (no_null_entries items Hwf) at 1.
    rewrite forEach_items_ward_rows. now rewrite <- app_assoc.
Qed.

Lemma forEach_items_constituency_rows countyName (ks : list constituency_entry) :
  Forall wards_well_formed ks ->
  forall acc w,
    forEach_items (map Some ks) (push_constituency countyName) acc w
    = (Returned (acc ++ flat_map (constituency_rows countyName) ks), w).
Proof.
  induction 1 as [|k ks Hk _ IH]; intros acc w; cbn [map forEach_items flat_map].
  - unfold ret. now rewrite app_nil_r.
  - unfold bind. rewrite (push_constituency_rows countyName k acc w Hk).
    rewrite IH. now rewrite <- app_assoc.
Qed.

(** X11. In live mode, when the answer for a county lists well-formed
    constituencies, [fetchAreasByCounty] returns one row per constituency,
    each followed at once by the rows of its wards, in the order of the
    answer; every row carries the county name that was asked for. *)
Theorem fetchAreasByCounty_rows (net : network) (w : world)
    (countyName : option string)
    (cs : js_array county_entry) (ks : list constituency_entry) :
  useMockData (this w) = false ->
  fst (_fetchJSON net
         (apiBase (this w) +:+ "/areas?county="
          +:+ encodeURIComponent (String_of_property countyName))
         [] 8000 2 w)
  = Returned (JsonObject cs (Array (map Some ks))) ->
  Forall wards_well_formed ks ->
  fst (fetchAreasByCounty net countyName w)
  = Returned (flat_map (constituency_rows countyName) ks)
  /\ length (flat_map (constituency_rows countyName) ks)
     = (length ks + length (flat_map wards_of ks))%nat
  /\ Forall (fun r => row_county r = countyName)
       (flat_map (constituency_rows countyName) ks).
Proof.
  intros Hlive Hdata Hwf. split; [|split].
  - unfold fetchAreasByCounty, try_catch, fetchAreasByCounty_try, bind, get_this.
    rewrite Hlive.
    destruct (_fetchJSON net _ [] 8000 2 w) as [c w'].
    cbn [fst] in Hdata. subst c. cbn [constituencies_of ret forEach].
    now rewrite (forEach_items_constituency_rows countyName ks Hwf).
  - clear. induction ks as [|k ks IH]; [reflexivity|].
    cbn [flat_map]. rewrite !length_app, IH.
    unfold constituency_rows. cbn [length]. rewrite length_map. lia.
  - apply Forall_forall. intros r Hr.
    apply list_elem_of_In, in_flat_map in Hr as (k & _ & Hr).
    destruct Hr as [<-|Hr]; [reflexivity|].
    apply in_map_iff in Hr as (ward & <- & _). reflexivity.
Qed.

(** The sample source: Lamu has one constituency with one ward. *)
Lemma fetchAreasByCounty_rows_witness :
  let w := world_of live_service in
  fst (fetchAreasByCounty sample_network (Some "Lamu") w)
  = Returned
      [ mkRow (Some "Lamu East") (Some "005-01") "constituency" (Some "Lamu") None;
        mkRow (Some "Faza") (Some "005-01-01") "ward" (Some "Lamu")
          (Some "Lamu East") ].
Proof.
  intros w.
  destruct (fetchAreasByCounty_rows sample_network w (Some "Lamu") Falsy
              [mkConstituency (Some "Lamu East") (Some "005-01")
                 (Array [Some (mkWard (Some "Faza") (Some "005-01-01"))])])
    as (Hrows & _).
  - reflexivity.
  - vm_compute. reflexivity.
  - repeat constructor; discriminate.
  - exact Hrows.
Defined.

(** ** Escaping HTML *)

Lemma escape_char_cases x :
  (x = "&"%char /\ escape_char x = "&amp;")
  \/ (x = "<"%char /\ escape_char x = "&lt;")
  \/ (x = ">"%char /\ escape_char x = "&gt;")
  \/ (x = dquote /\ escape_char x = "&quot;")
  \/ (x = squote /\ escape_char x = "&#039;")
  \/ (html_special x = false /\ escape_char x = String x EmptyString).
Proof.
  unfold escape_char, html_special.
  destruct (Ascii.eqb_spec x "&") as [->|_]; [now left|].
  destruct (Ascii.eqb_spec x "<") as [->|_]; [right; now left|].
  destruct (Ascii.eqb_spec x ">") as [->|_]; [do 2 right; now left|].
  destruct (Ascii.eqb_spec x dquote) as [->|_]; [do 3 right; now left|].
  destruct (Ascii.eqb_spec x squote) as [->|_]; [do 4 right; now left|].
  do 5 right. now split.
Qed.

(** The five replacements in sequence act as one pass over the input: an
    inserted entity is never touched by a later replacement. *)
Lemma escapeHTML_one_pass s : escapeHTML (VString s) = escape_each s.
Proof.
  unfold escapeHTML. induction s as [|x s IH]; [reflexivity|].
  cbn [escape_each]. rewrite <- IH.
  destruct (escape_char_cases x) as [[-> ->]|[[-> ->]|[[-> ->]|[[-> ->]|[[-> ->]|[Hx ->]]]]]];
    try reflexivity.
  unfold html_special in Hx.
  apply orb_false_iff in Hx as [Hx H5]. apply orb_false_iff in Hx as [Hx H4].
  apply orb_false_iff in Hx as [Hx H3]. apply orb_false_iff in Hx as [H1 H2].
  cbn [replace_char]. rewrite H1. cbn [replace_char]. rewrite H2.
  cbn [replace_char]. rewrite H3. cbn [replace_char]. rewrite H4.
  cbn [replace_char]. rewrite H5. reflexivity.
Qed.

Lemma list_of_string_app s1 s2 :
  list_of_string (s1 +:+ s2) = list_of_string s1 ++ list_of_string s2.
Proof.
  unfold list_of_string. induction s1 as [|x s1 IH]; [reflexivity|].
  change (String x s1 +:+ s2) with (String x (s1 +:+ s2)).
  cbn [list_ascii_of_string app]. f_equal. exact IH.
Qed.

Lemma string_length_app s1 s2 :
  String.length (s1 +:+ s2) = (String.length s1 + String.length s2)%nat.
Proof.
  induction s1 as [|x s1 IH]; [reflexivity|].
  change (String x s1 +:+ s2) with (String x (s1 +:+ s2)).
  cbn [String.length]. now rewrite IH.
Qed.

(** X12. [escapeHTML] returns a string without [<], [>], double quote or
    apostrophe, at least as long as its input; a string without HTML-special
    characters is returned as it is; a value that is not a string gives the
    empty string. *)
Theorem escapeHTML_safe (s : string) :
  Forall (fun x => x <> "<"%char /\ x <> ">"%char /\ x <> dquote /\ x <> squote)
    (list_of_string (escapeHTML (VString s)))
  /\ (String.length s <= String.length (escapeHTML (VString s)))%nat
  /\ (Forall (fun x => html_special x = false) (list_of_string s) ->
      escapeHTML (VString s) = s)
  /\ (forall v, (forall s', v <> VString s') -> escapeHTML v = "").
Proof.
  rewrite escapeHTML_one_pass.
  split; [|split; [|split]];
    [| | |intros [s'| | | |] Hv; [now elim (Hv s')|reflexivity..]].
  - induction s as [|x s IH]; [constructor|].
    cbn [escape_each]. rewrite list_of_string_app. apply Forall_app. split; [|exact IH].
    destruct (escape_char_cases x)
      as [[-> ->]|[[-> ->]|[[-> ->]|[[-> ->]|[[-> ->]|[Hx ->]]]]]];
      try (repeat constructor; discriminate).
    constructor; [|constructor].
    unfold html_special in Hx.
    apply orb_false_iff in Hx as [Hx H5]. apply orb_false_iff in Hx as [Hx H4].
    apply orb_false_iff in Hx as [Hx H3]. apply orb_false_iff in Hx as [H1 H2].
    repeat split; intros ->; discriminate.
  - induction s as [|x s IH]; [reflexivity|].
    cbn [escape_each]. rewrite string_length_app. cbn [String.length].
    destruct (escape_char_cases x)
      as [[-> ->]|[[-> ->]|[[-> ->]|[[-> ->]|[[-> ->]|[Hx ->]]]]]];
      cbn [String.length]; lia.
  - induction s as [|x s IH]; [reflexivity|].
    intros H. apply Forall_cons_iff in H as [Hx Hs].
    cbn [escape_each]. rewrite (IH Hs).
    destruct (escape_char_cases x)
      as [[-> _]|[[-> _]|[[-> _]|[[-> _]|[[-> _]|[_ ->]]]]]];
      try discriminate. reflexivity.
Qed.

(** The strings of the test-suite. *)
Lemma escapeHTML_safe_witness :
  escapeHTML (VString "Tom & Jerry") = "Tom &amp; Jerry"
  /\ escapeHTML (VString "<b>it's</b>") = "&lt;b&gt;it&#039;s&lt;/b&gt;"
  /\ escapeHTML (VString "Kwale") = "Kwale"
  /\ escapeHTML (VNumber 47) = "".
Proof.
  split; [reflexivity|]. split; [reflexivity|].
  destruct (escapeHTML_safe "Kwale") as (_ & _ & Hid & Hother).
  split; [apply Hid; repeat constructor|].
  apply Hother. discriminate.
Defined.

Lemma string_app_inv_l (p s1 s2 : string) : p +:+ s1 = p +:+ s2 -> s1 = s2.
Proof.
  induction p as [|x p IH]; cbn [String.append]; [auto|].
  intros H. injection H as H. auto.
Qed.

Lemma string_app_cons x s1 s2 : String x s1 +:+ s2 = String x (s1 +:+ s2).
Proof. reflexivity. Qed.

Lemma string_app_nil s : "" +:+ s = s.
Proof. reflexivity. Qed.

(** X13. [escapeHTML] loses nothing: two strings with the same escaped
    form are the same string. *)
Theorem escapeHTML_injective (s1 s2 : string) :
  escapeHTML (VString s1) = escapeHTML (VString s2) -> s1 = s2.
Proof.
  rewrite !escapeHTML_one_pass. revert s2.
  induction s1 as [|x s1 IH]; intros [|y s2] H.
  - reflexivity.
  - exfalso. cbn [escape_each] in H.
    destruct (escape_char_cases y)
      as [[_ E]|[[_ E]|[[_ E]|[[_ E]|[[_ E]|[_ E]]]]]]; rewrite E in H; discriminate.
  - exfalso. cbn [escape_each] in H.
    destruct (escape_char_cases x)
      as [[_ E]|[[_ E]|[[_ E]|[[_ E]|[[_ E]|[_ E]]]]]]; rewrite E in H; discriminate.
  - cbn [escape_each] in H.
    destruct (escape_char_cases x)
      as [[Hx Ex]|[[Hx Ex]|[[Hx Ex]|[[Hx Ex]|[[Hx Ex]|[Hx Ex]]]]]];
    destruct (escape_char_cases y)
      as [[Hy Ey]|[[Hy Ey]|[[Hy Ey]|[[Hy Ey]|[[Hy Ey]|[Hy Ey]]]]]];
    rewrite Ex, Ey in H; rewrite ?string_app_cons, ?string_app_nil in H;
    try discriminate H;
    injection H as H; subst;
    try discriminate;
    f_equal; apply IH; congruence.
Qed.

(** Two different strings never share an escaped form. *)
Lemma escapeHTML_injective_witness :
  let s1 := "a<b" in
  let s2 := String "a" (String "<" "b") in
  escapeHTML (VString s1) = escapeHTML (VString s2)
  /\ s1 = s2
  /\ escapeHTML (VString "a<b") = "a&lt;b"
  /\ escapeHTML (VString "a&lt;b") = "a&amp;lt;b".
Proof.
  intros s1 s2.
  assert (H : escapeHTML (VString s1) = escapeHTML (VString s2)) by reflexivity.
  split; [exact H|]. split; [exact (escapeHTML_injective s1 s2 H)|].
  split; reflexivity.
Defined.

(** ** Validating the search input *)

Lemma no_double_space_cons a l :
  (forall b l', l = b :: l' -> ~ (a = 32%N /\ b = 32%N)) ->
  no_double_space l -> no_double_space (a :: l).
Proof.
  intros Hhead Hl. destruct l as [|b l']; [exact I|].
  split; [now apply (Hhead b l')|exact Hl].
Qed.

Lemma collapse_spaces_head u v b l' :
  is_white_space u = false ->
  collapse_spaces (u :: v) = b :: l' -> b <> 32%N.
Proof.
  intros Hu. cbn [collapse_spaces]. rewrite Hu. intros H. injection H as <- _.
  intros ->. discriminate.
Qed.

Lemma collapse_spaces_no_double v : no_double_space (collapse_spaces v).
Proof.
  induction v as [|u v IH]; [exact I|].
  cbn [collapse_spaces].
  destruct (is_white_space u) eqn:Hu.
  - destruct v as [|u' v']; [exact I|].
    destruct (is_white_space u') eqn:Hu'; [exact IH|].
    apply no_double_space_cons; [|exact IH].
    intros b l' E [_ ->]. now apply (collapse_spaces_head u' v' 32%N l' Hu' E).
  - apply no_double_space_cons; [|exact IH].
    intros b l' _ [-> _]. discriminate.
Qed.

Lemma collapse_spaces_Forall (P : N -> Prop) v :
  P 32%N -> Forall P v -> Forall P (collapse_spaces v).
Proof.
  intros H32. induction 1 as [|u v Hu Hv IH]; [constructor|].
  cbn [collapse_spaces].
  destruct (is_white_space u).
  - destruct v as [|u' v']; [now repeat constructor|].
    destruct (is_white_space u'); [exact IH|now constructor].
  - now constructor.
Qed.

Lemma collapse_spaces_length v : (length (collapse_spaces v) <= length v)%nat.
Proof.
  induction v as [|u v IH]; [reflexivity|].
  cbn [collapse_spaces].
  destruct (is_white_space u).
  - destruct v as [|u' v']; [reflexivity|].
    destruct (is_white_space u'); cbn [length] in *; lia.
  - cbn [length]. lia.
Qed.

Lemma allowed_white_space u :
  input_allowed u = true -> is_white_space u = true -> u = 32%N.
Proof.
  unfold input_allowed, is_white_space. cbn [existsb].
  rewrite !orb_false_r, !orb_true_iff, !andb_true_iff, !N.leb_le, !N.eqb_eq.
  lia.
Qed.

Lemma collapse_spaces_clean v :
  Forall (fun u => input_allowed u = true) v ->
  no_double_space v ->
  collapse_spaces v = v.
Proof.
  induction 1 as [|u v Hu Hv IH]; intros Hnd; [reflexivity|].
  cbn [collapse_spaces].
  assert (Hv' : collapse_spaces v = v).
  { apply IH. destruct v; [exact I|]. now destruct Hnd. }
  destruct (is_white_space u) eqn:Hws; [|now rewrite Hv'].
  pose proof (allowed_white_space u Hu Hws) as ->.
  destruct v as [|u' v']; [reflexivity|].
  destruct Hnd as [Hpair _].
  destruct (is_white_space u') eqn:Hws'; [|now rewrite Hv'].
  exfalso. apply Hpair. split; [reflexivity|].
  apply Forall_cons_iff in Hv as [Hu' _].
  now apply allowed_white_space.
Qed.

Lemma filter_Forall_id {A} (f : A -> bool) l :
  Forall (fun x => f x = true) l -> List.filter f l = l.
Proof.
  induction 1 as [|x l Hx _ IH]; [reflexivity|].
  cbn [List.filter]. now rewrite Hx, IH.
Qed.

Lemma trimStart_length v : (length (trimStart v) <= length v)%nat.
Proof.
  induction v as [|u v IH]; [reflexivity|].
  cbn [trimStart]. destruct (is_white_space u); cbn [length] in *; lia.
Qed.

Lemma trim_length v : (length (trim v) <= length v)%nat.
Proof.
  unfold trim. rewrite length_rev.
  etransitivity; [apply trimStart_length|]. rewrite length_rev.
  apply trimStart_length.
Qed.

Lemma filter_length_le {A} (f : A -> bool) l :
  (length (List.filter f l) <= length l)%nat.
Proof.
  induction l as [|x l IH]; [reflexivity|].
  cbn [List.filter]. destruct (f x); cbn [length]; lia.
Qed.

Lemma trimStart_clean v :
  is_white_space (hd 0%N v) = false -> trimStart v = v.
Proof. destruct v as [|u v]; [reflexivity|]. cbn. now intros ->. Qed.

(** X14. The string [validateInput] returns holds only the characters
    [A-Z a-z 0-9 space . , ! ? -], never two spaces in a row, and is no
    longer than the input; an input of allowed characters without a double
    space and without a space at either end is returned as it is; a value
    that is not a string gives the empty string. *)
Theorem validateInput_allowed (value : list N) :
  Forall (fun u => input_allowed u = true) (validateInput (Some value))
  /\ no_double_space (validateInput (Some value))
  /\ (length (validateInput (Some value)) <= length value)%nat
  /\ (Forall (fun u => input_allowed u = true) value ->
      no_double_space value ->
      is_white_space (hd 0%N value) = false ->
      is_white_space (hd 0%N (rev value)) = false ->
      validateInput (Some value) = value)
  /\ validateInput None = [].
Proof.
  unfold validateInput.
  split; [|split; [|split; [|split; [|reflexivity]]]].
  - apply collapse_spaces_Forall; [reflexivity|].
    apply Forall_forall. intros u Hu.
    apply list_elem_of_In, filter_In in Hu. tauto.
  - apply collapse_spaces_no_double.
  - etransitivity; [apply collapse_spaces_length|].
    etransitivity; [apply filter_length_le|apply trim_length].
  - intros Hall Hnd Hhd Hlast.
    assert (Htrim : trim value = value).
    { unfold trim. rewrite (trimStart_clean value Hhd).
      rewrite (trimStart_clean (rev value) Hlast). apply rev_involutive. }
    rewrite Htrim.
    rewrite (filter_Forall_id input_allowed value Hall).
    now apply collapse_spaces_clean.
Qed.

(** "Nairobi West" is kept; the tag and the doubled blanks of
    "  <b>Lamu   East</b> " go; after "@" is removed from "@ a" the blank
    that followed it stays in front. *)
Lemma validateInput_allowed_witness :
  validateInput (Some (code_units "Nairobi West")) = code_units "Nairobi West"
  /\ validateInput (Some (code_units "  <b>Lamu   East</b> ")) = code_units "bLamu Eastb"
  /\ validateInput (Some (code_units "@ a")) = code_units " a".
Proof.
  split; [|split; reflexivity].
  destruct (validateInput_allowed (code_units "Nairobi West")) as (_ & _ & _ & Hid & _).
  apply Hid; [repeat constructor|cbn; intuition discriminate|reflexivity|reflexivity].
Defined.
